(** * HtmlParser: a regex-based HTML element extractor (HtmlParser.js)

    The JavaScript class [HtmlParser] finds elements in a document string
    with regular expressions built from its arguments.  This development
    embeds, in order,

    - the fragment of the JavaScript runtime the class relies on: strings
      of code units, the [RegExp] constructor (a parser for pattern
      sources), the backtracking matcher of ECMAScript, and the string
      methods [match], [search], [exec], [replace], [trim], [substring];
    - the static methods of [HtmlParser] that find elements, read
      attributes and text, and evaluate selectors, one definition per
      method (the instance methods only forward to them);
    - reference functions that say directly what the patterns match;
    - the facts that relate the two, and the properties of the methods.

    Conventions.  A document is a [string] whose characters are code units
    in the range 0..255.  A JavaScript value that may be [null] or
    [undefined] is an [option]; a call that may throw returns an
    [outcome]; offsets are natural numbers, and the result [-1] of
    [String.prototype.search] is [None].  A string interpolated into a
    pattern source is part of that source, as in the class: the
    constructor [RegExp.create] parses the whole source. *)

From Stdlib Require Import Bool Arith Lia List Ascii String Sorted.
Import ListNotations.
Open Scope char_scope.
Open Scope string_scope.
Open Scope nat_scope.

(* ================================================================== *)
(** * Outcomes of a JavaScript call *)

Inductive error : Type :=
| SyntaxError   (* thrown by [new RegExp] on an invalid pattern *)
| TypeError     (* thrown by indexing [null] *)
| Unmodelled.   (* pattern syntax outside the fragment embedded here *)

Inductive outcome (A : Type) : Type :=
| Ret (a : A)
| Throw (e : error)
| Timeout.      (* a loop did not finish within its fuel *)

Arguments Ret {A} a.
Arguments Throw {A} e.
Arguments Timeout {A}.

Definition bind {A B : Type} (m : outcome A) (f : A -> outcome B) : outcome B :=
  match m with
  | Ret a => f a
  | Throw e => Throw e
  | Timeout => Timeout
  end.

Notation "x <- m ;; k" := (bind m (fun x => k))
  (at level 61, m at next level, right associativity).
Notation "' p <- m ;; k" := (bind m (fun x => match x with p => k end))
  (at level 61, p pattern, m at next level, right associativity).

(* ================================================================== *)
(** * Characters and strings *)

Definition code (c : ascii) : nat := nat_of_ascii c.

Definition in_range (lo hi c : ascii) : bool :=
  (code lo <=? code c) && (code c <=? code hi).

Definition is_digit (c : ascii) : bool := in_range "0" "9" c.
Definition is_letter (c : ascii) : bool := in_range "a" "z" c || in_range "A" "Z" c.
Definition is_alnum (c : ascii) : bool := is_letter c || is_digit c.

(** The double quote, and a helper to write it inside literals: [qq]
    turns every apostrophe of a literal into a double quote.  It is only
    ever applied to literals of this file, never to an argument. *)
Definition dquote : ascii := ascii_of_nat 34.

Fixpoint qq (s : string) : string :=
  match s with
  | "" => ""
  | String c s' => String (if Ascii.eqb c "'" then dquote else c) (qq s')
  end.

(** [Canonicalize] of ECMAScript for a case-insensitive, non-unicode
    pattern, on code units below 256: [toUpperCase] where the upper-case
    form is again a single code unit of that range. *)
Definition canonicalize (c : ascii) : ascii :=
  let n := code c in
  if ((97 <=? n) && (n <=? 122)) || ((224 <=? n) && (n <=? 254) && negb (n =? 247))
  then ascii_of_nat (n - 32)
  else c.

(** [IsWordChar]: the characters of [\w], which decide [\b]. *)
Definition is_word (c : ascii) : bool := is_alnum c || Ascii.eqb c "_".

(** White space and line terminators removed by [trim]. *)
Definition is_space (c : ascii) : bool :=
  let n := code c in
  ((9 <=? n) && (n <=? 13)) || (n =? 32) || (n =? 160).

Fixpoint all_chars (p : ascii -> bool) (s : string) : bool :=
  match s with
  | "" => true
  | String c s' => p c && all_chars p s'
  end.

Fixpoint has_char (c : ascii) (s : string) : bool :=
  match s with
  | "" => false
  | String d s' => Ascii.eqb c d || has_char c s'
  end.

(** [s.substring(n)] *)
Fixpoint drop (n : nat) (s : string) : string :=
  match n, s with
  | 0, _ => s
  | S n', String _ s' => drop n' s'
  | S _, "" => ""
  end.

Fixpoint take (n : nat) (s : string) : string :=
  match n, s with
  | S n', String c s' => String c (take n' s')
  | _, _ => ""
  end.

(** [s.substring(a, b)]: the arguments are clamped to the length and
    swapped when [a > b]. *)
Definition substring2 (s : string) (a b : nat) : string :=
  take (Nat.max a b - Nat.min a b) (drop (Nat.min a b) s).

Fixpoint rev_acc (s acc : string) : string :=
  match s with
  | "" => acc
  | String c s' => rev_acc s' (String c acc)
  end.

Fixpoint trim_start (s : string) : string :=
  match s with
  | "" => ""
  | String c s' => if is_space c then trim_start s' else s
  end.

(** [s.trim()] *)
Definition trim (s : string) : string :=
  rev_acc (trim_start (rev_acc (trim_start s) "")) "".

(** Truthiness of a string: every string but the empty one. *)
Definition truthy (s : string) : bool :=
  match s with
  | "" => false
  | _ => true
  end.

(* ================================================================== *)
(** * Regular expressions *)

Module RegExp.

(** ** Patterns *)

Inductive regex : Type :=
| Eps
| Chr (c : ascii)
| Cls (neg : bool) (ranges : list (ascii * ascii))
| Bol
| Eol
| WordB (neg : bool)
| Seq (a b : regex)
| Alt (a b : regex)
| Star (a : regex)
| Opt (a : regex)
| Group (n : nat) (a : regex).

Fixpoint has_group (r : regex) : bool :=
  match r with
  | Seq a b | Alt a b => has_group a || has_group b
  | Star a | Opt a => has_group a
  | Group _ _ => true
  | _ => false
  end.

Record t : Type := mk {
  pattern : regex;
  ngroups : nat;
  ignoreCase : bool;
  global : bool
}.

(** ** The constructor [new RegExp(source, flags)]

    A recursive-descent parser for the pattern syntax used by the class:
    literal characters, identity escapes, [\b] and [\B], [^] and [$],
    character classes with ranges, capturing groups, alternation and the
    greedy quantifiers [*], [+], [?].  Everything else of the ECMAScript
    syntax is reported as [Unmodelled]. *)

Fixpoint parse_class (s : string) (acc : list (ascii * ascii))
  : outcome (list (ascii * ascii) * string) :=
  match s with
  | "" => Throw SyntaxError
  | String "]" rest => Ret (rev acc, rest)
  | String "\" rest =>
      match rest with
      | "" => Throw SyntaxError
      | String e rest' =>
          if is_alnum e then Throw Unmodelled
          else match rest' with
               | String "-" (String "]" _) => parse_class rest' ((e, e) :: acc)
               | String "-" _ => Throw Unmodelled
               | _ => parse_class rest' ((e, e) :: acc)
               end
      end
  | String a rest =>
      match rest with
      | String "-" (String "]" _) => parse_class rest ((a, a) :: acc)
      | String "-" (String "\" _) => Throw Unmodelled
      | String "-" (String b rest') =>
          if code a <=? code b then parse_class rest' ((a, b) :: acc)
          else Throw SyntaxError
      | _ => parse_class rest ((a, a) :: acc)
      end
  end.

(** The quantifier, if any, that follows an atom. *)
Definition quantified (a : regex) (s : string) : outcome (regex * string) :=
  match s with
  | String "*" rest =>
      match rest with
      | String "?" _ => Throw Unmodelled
      | _ => if has_group a then Throw Unmodelled else Ret (Star a, rest)
      end
  | String "+" rest =>
      match rest with
      | String "?" _ => Throw Unmodelled
      | _ => if has_group a then Throw Unmodelled else Ret (Seq a (Star a), rest)
      end
  | String "?" rest =>
      match rest with
      | String "?" _ => Throw Unmodelled
      | _ => Ret (Opt a, rest)
      end
  | String "{" _ => Throw Unmodelled
  | _ => Ret (a, s)
  end.

Inductive token : Type :=
| TLit | TStop | TBol | TEol | TEsc | TClass | TOpen | TRepeat | TOther.

Definition classify (c : ascii) : token :=
  match c with
  | ")" | "|" => TStop
  | "^" => TBol
  | "$" => TEol
  | "\" => TEsc
  | "[" => TClass
  | "(" => TOpen
  | "*" | "+" | "?" => TRepeat
  | "." | "{" | "}" | "]" => TOther
  | _ => TLit
  end%char.

Definition parsed : Type := (regex * string * nat)%type.

(** [strip c s]: what follows [c] when [s] starts with [c]. *)
Definition strip (c : ascii) (s : string) : option string :=
  match s with
  | String d s' => if Ascii.eqb d c then Some s' else None
  | "" => None
  end.

(** [parse_disj] reads a disjunction and [parse_alt] one alternative, a
    sequence of terms, up to the next [|] or [)] or the end; [g] counts
    the groups opened so far.  An alternative is returned as a chain of
    [Seq] closed by [Eps]. *)
Fixpoint parse_disj (fuel : nat) (s : string) (g : nat) {struct fuel} : outcome parsed :=
  match fuel with
  | 0 => Timeout
  | S f =>
      '(a, rest, g1) <- parse_alt f s g ;;
      match strip "|" rest with
      | Some rest' =>
          '(b, rest2, g2) <- parse_disj f rest' g1 ;;
          Ret (Alt a b, rest2, g2)
      | None => Ret (a, rest, g1)
      end
  end
with parse_alt (fuel : nat) (s : string) (g : nat) {struct fuel} : outcome parsed :=
  match fuel with
  | 0 => Timeout
  | S f =>
      match s with
      | "" => Ret (Eps, s, g)
      | String c s' =>
          match classify c with
          | TStop => Ret (Eps, s, g)
          | TBol =>
              '(r, rest, g1) <- parse_alt f s' g ;;
              Ret (Seq Bol r, rest, g1)
          | TEol =>
              '(r, rest, g1) <- parse_alt f s' g ;;
              Ret (Seq Eol r, rest, g1)
          | TEsc =>
              match s' with
              | "" => Throw SyntaxError
              | String e s2 =>
                  if Ascii.eqb e "b" then
                    '(r, rest, g1) <- parse_alt f s2 g ;;
                    Ret (Seq (WordB false) r, rest, g1)
                  else if Ascii.eqb e "B" then
                    '(r, rest, g1) <- parse_alt f s2 g ;;
                    Ret (Seq (WordB true) r, rest, g1)
                  else if is_alnum e then Throw Unmodelled
                  else
                    '(a, s3) <- quantified (Chr e) s2 ;;
                    '(r, rest, g1) <- parse_alt f s3 g ;;
                    Ret (Seq a r, rest, g1)
              end
          | TClass =>
              let '(neg, body) := match strip "^" s' with
                                  | Some s2 => (true, s2)
                                  | None => (false, s')
                                  end in
              '(ranges, s2) <- parse_class body [] ;;
              '(a, s3) <- quantified (Cls neg ranges) s2 ;;
              '(r, rest, g1) <- parse_alt f s3 g ;;
              Ret (Seq a r, rest, g1)
          | TOpen =>
              match strip "?" s' with
              | Some _ => Throw Unmodelled
              | None =>
                  '(body, s2, g1) <- parse_disj f s' (S g) ;;
                  match strip ")" s2 with
                  | Some s3 =>
                      '(a, s4) <- quantified (Group (S g) body) s3 ;;
                      '(r, rest, g2) <- parse_alt f s4 g1 ;;
                      Ret (Seq a r, rest, g2)
                  | None => Throw SyntaxError
                  end
              end
          | TRepeat => Throw SyntaxError
          | TOther => Throw Unmodelled
          | TLit =>
              '(a, s2) <- quantified (Chr c) s' ;;
              '(r, rest, g1) <- parse_alt f s2 g ;;
              Ret (Seq a r, rest, g1)
          end
      end
  end.

(** The flags: [g] and [i] are embedded; the other flags of ECMAScript
    are [Unmodelled]; any other character is a [SyntaxError]. *)
Fixpoint parse_flags (s : string) (i g : bool) : outcome (bool * bool) :=
  match s with
  | "" => Ret (i, g)
  | String "i" s' => if i then Throw SyntaxError else parse_flags s' true g
  | String "g" s' => if g then Throw SyntaxError else parse_flags s' i true
  | String c s' =>
      if has_char c "dmsuvy" then Throw Unmodelled else Throw SyntaxError
  end.

Definition create (source flags : string) : outcome t :=
  '(r, rest, n) <- parse_disj (2 * String.length source + 2) source 0 ;;
  match rest with
  | "" =>
      '(i, g) <- parse_flags flags false false ;;
      Ret (mk r n i g)
  | _ => Throw SyntaxError
  end.

(** ** The matcher

    The backtracking matcher of ECMAScript, in its continuation-passing
    form: [rmatch r x k] matches [r] at state [x] and hands every way of
    doing so to [k], first the preferred one, until [k] accepts. *)

Record mstate : Type := MState {
  m_prev : option ascii;          (* the character before the position *)
  m_rest : string;                (* the input from the position on *)
  m_idx : nat;                    (* the position *)
  m_caps : list (nat * string)    (* captures, the latest first *)
}.

Definition advance (x : mstate) (c : ascii) (rest : string) : mstate :=
  MState (Some c) rest (S (m_idx x)) (m_caps x).

Definition set_cap (n : nat) (v : string) (x : mstate) : mstate :=
  MState (m_prev x) (m_rest x) (m_idx x) ((n, v) :: m_caps x).

Fixpoint lookup (n : nat) (caps : list (nat * string)) : option string :=
  match caps with
  | [] => None
  | (m, v) :: caps' => if n =? m then Some v else lookup n caps'
  end.

Definition char_eq (ic : bool) (c d : ascii) : bool :=
  if ic then Ascii.eqb (canonicalize c) (canonicalize d) else Ascii.eqb c d.

(** The lower-case partner of an upper-case code unit. *)
Definition uncanonicalize (c : ascii) : ascii :=
  let n := code c in
  if ((65 <=? n) && (n <=? 90)) || ((192 <=? n) && (n <=? 222) && negb (n =? 215))
  then ascii_of_nat (n + 32)
  else c.

(** Membership in a class: without [i], [d] lies in some range; with
    [i], some member of the class has the canonical form of [d], and the
    only code units with that canonical form are it and its lower-case
    partner. *)
Definition in_ranges (ic : bool) (ranges : list (ascii * ascii)) (d : ascii) : bool :=
  existsb (fun '(lo, hi) =>
             if ic
             then in_range lo hi (canonicalize d)
                  || in_range lo hi (uncanonicalize (canonicalize d))
             else in_range lo hi d) ranges.

Definition word_before (x : mstate) : bool :=
  match m_prev x with
  | Some c => is_word c
  | None => false
  end.

Definition word_after (x : mstate) : bool :=
  match m_rest x with
  | String c _ => is_word c
  | "" => false
  end.

Section Matcher.

Variable ic : bool.

Fixpoint rmatch (r : regex) (x : mstate) (k : mstate -> option mstate)
  {struct r} : option mstate :=
  match r with
  | Eps => k x
  | Chr c =>
      match m_rest x with
      | String d rest => if char_eq ic c d then k (advance x d rest) else None
      | "" => None
      end
  | Cls neg ranges =>
      match m_rest x with
      | String d rest =>
          if xorb neg (in_ranges ic ranges d) then k (advance x d rest) else None
      | "" => None
      end
  | Bol => match m_prev x with None => k x | Some _ => None end
  | Eol => match m_rest x with "" => k x | String _ _ => None end
  | WordB neg =>
      if xorb neg (xorb (word_before x) (word_after x)) then k x else None
  | Seq a b => rmatch a x (fun y => rmatch b y k)
  | Alt a b =>
      match rmatch a x k with
      | Some z => Some z
      | None => rmatch b x k
      end
  | Opt a =>
      match rmatch a x (fun y => if m_idx y =? m_idx x then None else k y) with
      | Some z => Some z
      | None => k x
      end
  | Star a =>
      (fix repeat (n : nat) (x : mstate) {struct n} : option mstate :=
         match n with
         | 0 => k x
         | S n' =>
             match rmatch a x (fun y => if m_idx y =? m_idx x then None
                                        else repeat n' y) with
             | Some z => Some z
             | None => k x
             end
         end) (S (String.length (m_rest x))) x
  | Group n a =>
      rmatch a x (fun y => k (set_cap n (take (m_idx y - m_idx x) (m_rest x)) y))
  end.

End Matcher.

(** ** Matching a string *)

(** A successful match: [m.index], [m[0]] and the captures. *)
Record match_result : Type := mkMatch {
  index : nat;
  whole : string;
  caps : list (nat * string)
}.

(** [m[n]] for [n >= 1]: [None] is [undefined]. *)
Definition group (m : match_result) (n : nat) : option string :=
  lookup n (caps m).

Definition end_index (m : match_result) : nat :=
  index m + String.length (whole m).

(** The first position from [idx] on at which the pattern matches. *)
Fixpoint scan (ic : bool) (r : regex) (prev : option ascii) (rest : string)
  (idx : nat) : option match_result :=
  match rmatch ic r (MState prev rest idx []) Some with
  | Some y => Some (mkMatch idx (take (m_idx y - idx) rest) (m_caps y))
  | None =>
      match rest with
      | "" => None
      | String c rest' => scan ic r (Some c) rest' (S idx)
      end
  end.

Fixpoint seek (n : nat) (prev : option ascii) (s : string)
  : option (option ascii * string) :=
  match n with
  | 0 => Some (prev, s)
  | S n' =>
      match s with
      | "" => None
      | String c s' => seek n' (Some c) s'
      end
  end.

(** [RegExpBuiltinExec] started at [lastIndex]. *)
Definition exec_at (re : t) (s : string) (lastIndex : nat) : option match_result :=
  match seek lastIndex None s with
  | None => None
  | Some (prev, rest) => scan (ignoreCase re) (pattern re) prev rest lastIndex
  end.

(** [re.exec(s)]: the result and the new value of [re.lastIndex]. *)
Definition exec (re : t) (s : string) (lastIndex : nat)
  : option match_result * nat :=
  if global re then
    match exec_at re s lastIndex with
    | Some m => (Some m, end_index m)
    | None => (None, 0)
    end
  else (exec_at re s 0, lastIndex).

(** [s.match(re)] for a regular expression without the [g] flag. *)
Definition str_match (s : string) (re : t) : option match_result :=
  exec_at re s 0.

(** [s.search(re)]: [None] stands for [-1]. *)
Definition search (s : string) (re : t) : option nat :=
  option_map index (exec_at re s 0).

(** [s.replace(re, repl)] for a regular expression with the [g] flag and
    a replacement without [$]: every match, found from left to right, is
    replaced; after an empty match the search resumes one position on.
    [skip] counts the characters of the last match still to be passed. *)
Fixpoint replace_scan (ic : bool) (r : regex) (repl : string)
  (prev : option ascii) (rest : string) (skip : nat) : string :=
  match skip with
  | S skip' =>
      match rest with
      | "" => ""
      | String c rest' => replace_scan ic r repl (Some c) rest' skip'
      end
  | 0 =>
      match rmatch ic r (MState prev rest 0 []) Some with
      | Some y =>
          repl ++
          match rest with
          | "" => ""
          | String c rest' =>
              match m_idx y with
              | 0 => String c (replace_scan ic r repl (Some c) rest' 0)
              | S n => replace_scan ic r repl (Some c) rest' n
              end
          end
      | None =>
          match rest with
          | "" => ""
          | String c rest' => String c (replace_scan ic r repl (Some c) rest' 0)
          end
      end
  end.

Definition replace_all (s : string) (re : t) (repl : string) : string :=
  replace_scan (ignoreCase re) (pattern re) repl None s 0.

End RegExp.

(* ================================================================== *)
(** * The static methods of [HtmlParser] *)

Module HtmlParser.

Import RegExp.

(** The default value of the parameter [tag] of [getByClass]. *)
Definition anyTag : string := "[a-zA-Z][a-zA-Z0-9]*".

(** A template literal prints [undefined] for a group that did not
    take part in the match. *)
Definition interpolate (v : option string) : string :=
  match v with
  | Some s => s
  | None => "undefined"
  end.

(** Truthiness of a value that is a string or [undefined]/[null]. *)
Definition truthy_opt (v : option string) : bool :=
  match v with
  | Some s => truthy s
  | None => false
  end.

(** [m[0].length], where [m] is the result of [match]: indexing [null]
    throws. *)
Definition match0_length (m : option match_result) : outcome nat :=
  match m with
  | Some r => Ret (String.length (whole r))
  | None => Throw TypeError
  end.

(** ** [extractElement] *)

(** The loop [while (depth > 0 && pos < html.length)]; it returns the
    final value of [pos].  Each round builds its patterns anew, as the
    method does.  The fuel bounds the rounds: for a tag name every round
    moves [pos] forward, so that [html.length + 1] rounds are enough
    ([extract_loop_total] below). *)
Fixpoint extract_loop (fuel : nat) (html tagName : string) (depth pos : nat)
  : outcome nat :=
  match fuel with
  | 0 => Timeout
  | S fuel' =>
      if (0 <? depth) && (pos <? String.length html) then
        reOpen <- create ("<" ++ tagName ++ "[^>]*>") "i" ;;
        let nextOpen := search (drop pos html) reOpen in
        reClose <- create ("</" ++ tagName ++ ">") "i" ;;
        let nextClose := search (drop pos html) reClose in
        match nextClose with
        | None => Ret pos
        | Some nextClose =>
            if match nextOpen with
               | Some nextOpen => nextOpen <? nextClose
               | None => false
               end
            then
              let nextOpen := match nextOpen with Some n => n | None => 0 end in
              re <- create ("^<" ++ tagName ++ "[^>]*>") "i" ;;
              len <- match0_length (str_match (drop (pos + nextOpen) html) re) ;;
              extract_loop fuel' html tagName (depth + 1) (pos + (nextOpen + len))
            else
              re <- create ("^</" ++ tagName ++ ">") "i" ;;
              len <- match0_length (str_match (drop (pos + nextClose) html) re) ;;
              extract_loop fuel' html tagName (depth - 1) (pos + (nextClose + len))
        end
      else Ret pos
  end.

Definition extractElement (html : string) (startPos : nat) (tagName : string)
  : outcome (option string) :=
  openRegex <- create ("<" ++ tagName ++ "[^>]*>") "gi" ;;
  closeRegex <- create ("</" ++ tagName ++ ">") "gi" ;;
  re <- create ("^<" ++ tagName ++ "[^>]*>") "i" ;;
  match str_match (drop startPos html) re with
  | None => Ret None
  | Some openMatch =>
      pos <- extract_loop (S (String.length html)) html tagName 1
               (startPos + String.length (whole openMatch)) ;;
      Ret (Some (substring2 html startPos pos))
  end.

(** ** The scanning loop of the finders

    [while ((match = regex.exec(html)) !== null)] with its body: the
    element that starts at [match.index] is extracted and pushed when it
    is truthy.  [tagOf] gives the tag name handed to [extractElement]:
    [match[1]] in [getByClass] and [getByDataAttr], [tag] in [getByTag].
    The fuel bounds the rounds: when no match is empty, [lastIndex] grows
    with every round and [html.length + 1] rounds are enough
    ([exec_loop_at_total] below); after an empty match the loop of the
    method never ends, and this one does not return
    ([exec_loop_at_stuck]). *)
Fixpoint exec_loop (fuel : nat) (html : string) (regex : RegExp.t)
  (tagOf : match_result -> string) (lastIndex : nat) (elements : list string)
  : outcome (list string) :=
  match fuel with
  | 0 => Timeout
  | S fuel' =>
      match exec regex html lastIndex with
      | (None, _) => Ret elements
      | (Some m, lastIndex') =>
          let tagName := tagOf m in
          let startPos := index m in
          element <- extractElement html startPos tagName ;;
          match element with
          | Some e =>
              if truthy e
              then exec_loop fuel' html regex tagOf lastIndex' (elements ++ [e])%list
              else exec_loop fuel' html regex tagOf lastIndex' elements
          | None => exec_loop fuel' html regex tagOf lastIndex' elements
          end
      end
  end.

(** The same loop, recording with each element the offset [startPos] at
    which it was found. *)
Fixpoint exec_loop_at (fuel : nat) (html : string) (regex : RegExp.t)
  (tagOf : match_result -> string) (lastIndex : nat)
  (elements : list (nat * string)) : outcome (list (nat * string)) :=
  match fuel with
  | 0 => Timeout
  | S fuel' =>
      match exec regex html lastIndex with
      | (None, _) => Ret elements
      | (Some m, lastIndex') =>
          let tagName := tagOf m in
          let startPos := index m in
          element <- extractElement html startPos tagName ;;
          match element with
          | Some e =>
              if truthy e
              then exec_loop_at fuel' html regex tagOf lastIndex'
                     (elements ++ [(startPos, e)])%list
              else exec_loop_at fuel' html regex tagOf lastIndex' elements
          | None => exec_loop_at fuel' html regex tagOf lastIndex' elements
          end
      end
  end.

Definition tag_of_group1 (m : match_result) : string := interpolate (group m 1).

(** ** [getByClass] *)

Definition class_source (className tag : string) : string :=
  "<(" ++ tag ++ qq ")([^>]*\bclass='[^']*\b" ++ className
       ++ qq "\b[^']*'[^>]*)>".

Definition getByClass (html className : string) (tag : option string)
  : outcome (list string) :=
  let tag := match tag with Some t => t | None => anyTag end in
  regex <- create (class_source className tag) "gi" ;;
  exec_loop (S (String.length html)) html regex tag_of_group1 0 [].

(** [getByClass] with the offset of each element. *)
Definition getByClass_at (html className : string) (tag : option string)
  : outcome (list (nat * string)) :=
  let tag := match tag with Some t => t | None => anyTag end in
  regex <- create (class_source className tag) "gi" ;;
  exec_loop_at (S (String.length html)) html regex tag_of_group1 0 [].

(** ** [getAttr], [getAttrs], [getText] *)




Definition getText (html : string) : outcome string :=
  regex <- create "<[^>]*>" "g" ;;
  Ret (trim (replace_all html regex "")).

(** ** [getByTag] *)

Definition getByTag (html tag : string) (className : option string)
  : outcome (list string) :=
  if truthy_opt className
  then getByClass html (interpolate className) (Some tag)
  else
    regex <- create ("<" ++ tag ++ "[^>]*>") "gi" ;;
    exec_loop (S (String.length html)) html regex (fun _ => tag) 0 [].

(** ** [getElementById] *)

Definition getElementById (html id : string) : outcome (list string) :=
  regex <- create (qq "<([a-zA-Z][a-zA-Z0-9]*)([^>]*\bid='" ++ id
                      ++ qq "'[^>]*)>") "i" ;;
  match fst (exec regex html 0) with
  | Some m =>
      let tagName := tag_of_group1 m in
      let startPos := index m in
      element <- extractElement html startPos tagName ;;
      match element with
      | Some e => if truthy e then Ret [e] else Ret []
      | None => Ret []
      end
  | None => Ret []
  end.

(** ** [getByDataAttr] *)


(** ** [querySelectorAll], [querySelector] *)

Definition selector_source : string :=
  "^([a-zA-Z0-9]*)?(#[a-zA-Z0-9_-]+)?(\.[a-zA-Z0-9_-]+)?$".

(** [v ? v.substring(1) : null] *)
Definition strip1 (v : option string) : option string :=
  match v with
  | Some s => if truthy s then Some (drop 1 s) else None
  | None => None
  end.

(** In each branch the values handed on have passed the truthiness test
    of that branch, so they are strings. *)
Definition querySelectorAll (html selector : string) : outcome (list string) :=
  regex <- create selector_source "" ;;
  match str_match selector regex with
  | None => Ret []
  | Some m =>
      let tag := group m 1 in
      let idSelector := group m 2 in
      let classSelector := group m 3 in
      let id := strip1 idSelector in
      let className := strip1 classSelector in
      if truthy_opt id then getElementById html (interpolate id)
      else if truthy_opt tag && truthy_opt className
      then getByClass html (interpolate className) tag
      else if truthy_opt className
      then getByClass html (interpolate className) None
      else if truthy_opt tag then getByTag html (interpolate tag) None
      else Ret []
  end.

Definition querySelector (html selector : string) : outcome (option string) :=
  elements <- querySelectorAll html selector ;;
  match elements with
  | e :: _ => Ret (Some e)
  | [] => Ret None
  end.

End HtmlParser.

(* ================================================================== *)
(** * Reference functions

    Direct, first-order descriptions of what the patterns of the class
    match; the lemmas below relate the matcher to them. *)

Module Ref.

Import RegExp.

(** The pattern of a literal string [t] followed by [r]. *)
Fixpoint lits (t : string) (r : regex) : regex :=
  match t with
  | "" => r
  | String c t' => Seq (Chr c) (lits t' r)
  end.

(** The state [n] characters further on. *)
Fixpoint consume (n : nat) (x : mstate) : mstate :=
  match n with
  | 0 => x
  | S n' =>
      match m_rest x with
      | String d rest => consume n' (advance x d rest)
      | "" => x
      end
  end.

(** [p] is a prefix of [s], up to case under the flag [i]. *)
Fixpoint starts_with (ic : bool) (p s : string) : bool :=
  match p, s with
  | "", _ => true
  | String c p', String d s' => char_eq ic c d && starts_with ic p' s'
  | String _ _, "" => false
  end.

(** The offset of the first occurrence of [c] in [s]. *)
Fixpoint find_char (c : ascii) (s : string) : option nat :=
  match s with
  | "" => None
  | String d s' =>
      if Ascii.eqb d c then Some 0 else option_map S (find_char c s')
  end.

(** The length of the opening tag [<T...>] at the start of [s]: the
    characters [<T], up to case, then everything up to and including the
    first [>]. *)
Definition open_len (T s : string) : option nat :=
  if starts_with true (String "<" T) s
  then option_map (fun n => S (String.length T) + S n)
         (find_char ">" (drop (S (String.length T)) s))
  else None.

(** The length of the closing tag [</T>] at the start of [s]. *)
Definition close_len (T s : string) : option nat :=
  if starts_with true ("</" ++ T ++ ">") s
  then Some (String.length T + 3)
  else None.

(** The first offset of [s] at which [f] gives a length. *)
Fixpoint first_at (f : string -> option nat) (s : string) : option nat :=
  match f s with
  | Some _ => Some 0
  | None =>
      match s with
      | "" => None
      | String _ s' => option_map S (first_at f s')
      end
  end.


(** A name made of letters and digits. *)
Definition is_name (s : string) : bool := all_chars is_alnum s.

(** The characters of an identifier in a selector, and of the names the
    finders are given: letters, digits, [_] and [-]. *)
Definition is_ident_char (c : ascii) : bool :=
  is_alnum c || Ascii.eqb c "_" || Ascii.eqb c "-".

Definition is_ident (s : string) : bool := all_chars is_ident_char s.

(** The last character of [s] is [c]. *)
Fixpoint ends_with (c : ascii) (s : string) : bool :=
  match s with
  | "" => false
  | String d "" => Ascii.eqb d c
  | String _ s' => ends_with c s'
  end.

(** The patterns of an opening and of a closing tag of name [T]:
    [<T[^>]*>] and [</T>]. *)
Definition notgt : regex := Cls true [(">"%char, ">"%char)].

Definition open_re (T : string) : regex :=
  Seq (Chr "<") (lits T (Seq (Star notgt) (Seq (Chr ">") Eps))).

Definition close_re (T : string) : regex :=
  Seq (Chr "<") (Seq (Chr "/") (lits T (Seq (Chr ">") Eps))).

(** The text of [s] outside its tags, read from left to right: a [<]
    that some [>] follows opens a tag, which the first [>] closes;
    [inside] tells whether a tag is open. *)
Fixpoint strip_tags (inside : bool) (s : string) : string :=
  match s with
  | "" => ""
  | String c s' =>
      if inside then
        if Ascii.eqb c ">" then strip_tags false s' else strip_tags true s'
      else if Ascii.eqb c "<" && has_char ">" s' then strip_tags true s'
      else String c (strip_tags false s')
  end.

(** Every [<] of [s] is followed, somewhere, by a [>]. *)
Fixpoint tags_closed (s : string) : bool :=
  match s with
  | "" => true
  | String c s' =>
      (if Ascii.eqb c "<" then has_char ">" s' else true) && tags_closed s'
  end.

(** The compiled pattern of the selector grammar. *)
Definition selector_re : RegExp.t :=
  Eval vm_compute in
    match create HtmlParser.selector_source "" with
    | Ret re => re
    | _ => mk Eps 0 false false
    end.

(** The selector matches the grammar of [selector_source]: an optional
    tag name, an optional [#id], an optional [.class], in that order. *)
Definition matches_grammar (selector : string) : bool :=
  match str_match selector selector_re with
  | Some _ => true
  | None => false
  end.

(** The grammar as the specification words it: its Tag Name, a letter
    followed by letters and digits, stands in the place of the tag; the
    id and the class name are as the method reads them. *)
Definition spec_selector_source : string :=
  "^([a-zA-Z][a-zA-Z0-9]*)?(#[a-zA-Z0-9_-]+)?(\.[a-zA-Z0-9_-]+)?$".

Definition matches_spec_grammar (selector : string) : bool :=
  match create spec_selector_source "" with
  | Ret re =>
      match str_match selector re with
      | Some _ => true
      | None => false
      end
  | _ => false
  end.

(** The pieces of the selector pattern: the classes [[a-zA-Z0-9]] and
    [[a-zA-Z0-9_-]], and the group body [p[a-zA-Z0-9_-]+] for the
    prefix [p], which is [#] or [.]. *)
Definition alnum_ranges : list (ascii * ascii) :=
  [("a", "z"); ("A", "Z"); ("0", "9")]%char.

Definition ident_ranges : list (ascii * ascii) :=
  [("a", "z"); ("A", "Z"); ("0", "9"); ("_", "_"); ("-", "-")]%char.

Definition piece (p : ascii) : regex :=
  Seq (Chr p)
    (Seq (Seq (Cls false ident_ranges) (Star (Cls false ident_ranges))) Eps).

(** No character of [P] at the head of [s]. *)
Definition head_not (P : ascii -> bool) (s : string) : Prop :=
  match s with
  | "" => True
  | String d _ => P d = false
  end.

(** The selector made of a tag name, an id and a class name, where the
    empty tag name and [None] stand for a piece that is left out. *)
Definition selector_of (tag : string) (id cls : option string) : string :=
  tag ++ match id with Some i => "#" ++ i | None => "" end
      ++ match cls with Some c => "." ++ c | None => "" end.

(** The dispatch of a selector as the specification words it: the id
    first, then tag and class together, then the class alone, then the
    tag alone; nothing for the empty selector. *)
Definition dispatch (html tag : string) (id cls : option string)
  : outcome (list string) :=
  match id, cls, tag with
  | Some i, _, _ => HtmlParser.getElementById html i
  | None, Some c, String _ _ => HtmlParser.getByClass html c (Some tag)
  | None, Some c, "" => HtmlParser.getByClass html c None
  | None, None, String _ _ => HtmlParser.getByTag html tag None
  | None, None, "" => Ret []
  end.

(** A piece of a selector that is present is a non-empty identifier. *)
Definition piece_ok (v : option string) : Prop :=
  match v with
  | Some s => is_ident s = true /\ s <> ""
  | None => True
  end.

(** The text of a selector piece with its prefix, and the capture it
    leaves in group [n]. *)
Definition piece_text (p : ascii) (v : option string) : string :=
  match v with
  | Some s => String p s
  | None => ""
  end.

Definition piece_cap (n : nat) (p : ascii) (v : option string)
  : list (nat * string) :=
  match v with
  | Some s => [(n, String p s)]
  | None => []
  end.

Definition tag_cap (tag : string) : list (nat * string) :=
  match tag with
  | "" => []
  | _ => [(1, tag)]
  end.

(** No [p] at the head of [s]. *)
Definition head_differs (p : ascii) (s : string) : Prop :=
  match s with
  | "" => True
  | String d _ => Ascii.eqb p d = false
  end.

(** The declarative reading of a pattern: [reaches ic r x y] when [r]
    can match from the state [x] to the state [y]. *)
Inductive reaches (ic : bool) : regex -> mstate -> mstate -> Prop :=
| reach_eps x : reaches ic Eps x x
| reach_chr c d rest x :
    m_rest x = String d rest -> char_eq ic c d = true ->
    reaches ic (Chr c) x (advance x d rest)
| reach_cls neg rs d rest x :
    m_rest x = String d rest -> xorb neg (in_ranges ic rs d) = true ->
    reaches ic (Cls neg rs) x (advance x d rest)
| reach_bol x : m_prev x = None -> reaches ic Bol x x
| reach_eol x : m_rest x = "" -> reaches ic Eol x x
| reach_wordb neg x :
    xorb neg (xorb (word_before x) (word_after x)) = true ->
    reaches ic (WordB neg) x x
| reach_seq a b x y z :
    reaches ic a x y -> reaches ic b y z -> reaches ic (Seq a b) x z
| reach_alt_l a b x y : reaches ic a x y -> reaches ic (Alt a b) x y
| reach_alt_r a b x y : reaches ic b x y -> reaches ic (Alt a b) x y
| reach_opt_skip a x : reaches ic (Opt a) x x
| reach_opt_take a x y : reaches ic a x y -> reaches ic (Opt a) x y
| reach_star_stop a x : reaches ic (Star a) x x
| reach_star_step a x y z :
    reaches ic a x y -> reaches ic (Star a) y z -> reaches ic (Star a) x z
| reach_group n a x y :
    reaches ic a x y ->
    reaches ic (Group n a) x
      (set_cap n (take (m_idx y - m_idx x) (m_rest x)) y).

(** Every character the pattern can consume satisfies [P]. *)
Fixpoint accepts_only (ic : bool) (P : ascii -> bool) (r : regex) : Prop :=
  match r with
  | Chr c => forall d, char_eq ic c d = true -> P d = true
  | Cls neg rs => forall d, xorb neg (in_ranges ic rs d) = true -> P d = true
  | Seq a b | Alt a b => accepts_only ic P a /\ accepts_only ic P b
  | Star a | Opt a | Group _ a => accepts_only ic P a
  | Eps | Bol | Eol | WordB _ => True
  end.

(** The pattern of [getByClass]: [<], the tag in group 1, the
    attributes in group 2 with a [class] attribute whose value has the
    class name between word boundaries, [>]. *)
Definition notdq : regex := Cls true [(dquote, dquote)].

Definition class_body (className : string) : regex :=
  Seq (Star notgt)
    (Seq (WordB false)
       (lits (qq "class='")
          (Seq (Star notdq)
             (Seq (WordB false)
                (lits className
                   (Seq (WordB false)
                      (Seq (Star notdq)
                         (Seq (Chr dquote) (Seq (Star notgt) Eps))))))))).

Definition class_re (tag : regex) (className : string) : regex :=
  Seq (Chr "<")
    (Seq (Group 1 tag)
       (Seq (Group 2 (class_body className)) (Seq (Chr ">") Eps))).

(** The pattern of [anyTag]. *)
Definition anyTag_re : regex :=
  Seq (Cls false [("a", "z"); ("A", "Z")]%char)
    (Seq (Star (Cls false alnum_ranges)) Eps).

(** The optional tag of [getByClass] is left out or a plain name. *)
Definition tag_ok (tag : option string) : Prop :=
  match tag with
  | Some t => is_ident t = true
  | None => True
  end.

(** No quantifier at the head of [s]. *)
Definition unquantified (s : string) : Prop :=
  forall a, quantified a s = Ret (a, s).

(** The position reached by the loop: it never moves back, stays within
    the document, and stands right after a [>] once it has moved. *)
Definition reached (html : string) (pos pos' : nat) : Prop :=
  pos' = pos \/
  (pos < pos' <= String.length html /\ ends_with ">" (take pos' html) = true).

(** What [extractElement] returns for a tag name: nothing, or a span of
    the document that starts at [startPos] and ends with [>]. *)
Definition span_at (html : string) (startPos : nat) (e : string) : Prop :=
  exists n, 0 < n /\ startPos + n <= String.length html
            /\ e = take n (drop startPos html)
            /\ ends_with ">" e = true.

(** An element recorded with its offset is a piece of the document at
    that offset. *)
Definition piece_at (html : string) (pe : nat * string) : Prop :=
  exists n, snd pe = take n (drop (fst pe) html).

(** The loop of [Star a] in [rmatch], as a function of its own. *)
Section StarLoop.

Variables (ic : bool) (a : regex) (k : mstate -> option mstate).

Fixpoint star_loop (n : nat) (x : mstate) : option mstate :=
  match n with
  | 0 => k x
  | S n' =>
      match rmatch ic a x (fun y => if m_idx y =? m_idx x then None
                                    else star_loop n' y) with
      | Some z => Some z
      | None => k x
      end
  end.

End StarLoop.

(** A pattern [r] is decided by [L] when it matches at a position in
    exactly one way, of the length [L] gives for the input there. *)
Definition decided_by (r : regex) (L : string -> option nat) : Prop :=
  forall x k,
    rmatch true r x k =
    match L (m_rest x) with
    | Some n => k (consume n x)
    | None => None
    end.

End Ref.

(* ================================================================== *)
(** * Strings and characters: basic facts *)

(** A fact about one character, settled by going through the 256 of
    them. *)
Ltac each_char c :=
  destruct c as [[] [] [] [] [] [] [] []]; vm_compute;
  try reflexivity; try discriminate; try (intros; congruence).

Section StringFacts.

Lemma append_nil_r (s : string) : s ++ "" = s.
Proof. induction s; simpl; congruence. Qed.

Lemma append_assoc (a b c : string) : (a ++ b) ++ c = a ++ (b ++ c).
Proof. induction a; simpl; congruence. Qed.

Lemma length_append (a b : string) :
  String.length (a ++ b) = String.length a + String.length b.
Proof. induction a; simpl; congruence. Qed.

Lemma drop_nil (n : nat) : drop n "" = "".
Proof. destruct n; reflexivity. Qed.

Lemma drop_drop (a b : nat) (s : string) : drop a (drop b s) = drop (b + a) s.
Proof.
  revert s; induction b as [|b IH]; intros s; simpl; [reflexivity|].
  destruct s; [apply drop_nil | apply IH].
Qed.

Lemma drop_length (n : nat) (s : string) :
  String.length (drop n s) = String.length s - n.
Proof.
  revert s; induction n as [|n IH]; intros [|c s]; simpl; auto with arith.
Qed.

Lemma take_length (n : nat) (s : string) :
  String.length (take n s) = Nat.min n (String.length s).
Proof.
  revert s; induction n as [|n IH]; intros [|c s]; simpl; auto.
Qed.

Lemma take_add (a b : nat) (s : string) :
  take (a + b) s = take a s ++ take b (drop a s).
Proof.
  revert s; induction a as [|a IH]; intros s; simpl; [reflexivity|].
  destruct s as [|c s]; simpl.
  - destruct b; reflexivity.
  - now rewrite IH.
Qed.

Lemma drop_append (a b : string) : drop (String.length a) (a ++ b) = b.
Proof. induction a; simpl; auto. Qed.

Lemma take_append (a b : string) : take (String.length a) (a ++ b) = a.
Proof. induction a; simpl; congruence. Qed.

Lemma take_all (n : nat) (s : string) : String.length s <= n -> take n s = s.
Proof.
  revert s; induction n as [|n IH]; intros [|c s]; simpl; intros H;
    try reflexivity; try lia.
  rewrite IH; [reflexivity | lia].
Qed.

Lemma take_idem (n : nat) (s : string) :
  take (String.length (take n s)) s = take n s.
Proof.
  revert s; induction n as [|n IH]; intros [|c s]; cbn; try reflexivity.
  now rewrite IH.
Qed.

Lemma has_char_rev_acc (c : ascii) (s acc : string) :
  has_char c (rev_acc s acc) = has_char c s || has_char c acc.
Proof.
  revert acc; induction s as [|d s IH]; intros acc; simpl; [reflexivity|].
  rewrite IH; simpl.
  destruct (Ascii.eqb c d), (has_char c s), (has_char c acc); reflexivity.
Qed.

Lemma has_char_trim_start (c : ascii) (s : string) :
  has_char c s = false -> has_char c (trim_start s) = false.
Proof.
  induction s as [|d s IH]; simpl; [auto|].
  intros H. destruct (is_space d); [|exact H].
  apply orb_false_iff in H. now apply IH.
Qed.

Lemma has_char_trim (c : ascii) (s : string) :
  has_char c s = false -> has_char c (trim s) = false.
Proof.
  intros H. unfold trim.
  rewrite has_char_rev_acc; simpl; rewrite orb_false_r.
  apply has_char_trim_start.
  rewrite has_char_rev_acc; simpl; rewrite orb_false_r.
  now apply has_char_trim_start.
Qed.

End StringFacts.

(* ================================================================== *)
(** * The matcher on the patterns of the class *)

Section MatcherFacts.

Import RegExp Ref.

Lemma char_eq_gt (ic : bool) (d : ascii) : char_eq ic ">" d = Ascii.eqb d ">".
Proof. destruct ic; each_char d. Qed.

Lemma char_eq_lt (ic : bool) (d : ascii) : char_eq ic "<" d = Ascii.eqb d "<".
Proof. destruct ic; each_char d. Qed.

Lemma in_ranges_gt (ic : bool) (d : ascii) :
  in_ranges ic [(">"%char, ">"%char)] d = Ascii.eqb d ">".
Proof. destruct ic; each_char d. Qed.

Lemma rmatch_star (ic : bool) (a : regex) (x : mstate) k :
  rmatch ic (Star a) x k = star_loop ic a k (S (String.length (m_rest x))) x.
Proof. reflexivity. Qed.

Lemma consume_idx (n : nat) (x : mstate) :
  n <= String.length (m_rest x) -> m_idx (consume n x) = m_idx x + n.
Proof.
  revert x; induction n as [|n IH]; intros x H; simpl; [lia|].
  destruct (m_rest x) as [|d rest] eqn:E; simpl in H; [lia|].
  rewrite IH; simpl; [lia | lia].
Qed.

Lemma consume_rest (n : nat) (x : mstate) :
  n <= String.length (m_rest x) -> m_rest (consume n x) = drop n (m_rest x).
Proof.
  revert x; induction n as [|n IH]; intros x H; simpl; [reflexivity|].
  destruct (m_rest x) as [|d rest] eqn:E; simpl in H; [lia|].
  rewrite IH; simpl; [reflexivity | lia].
Qed.

Lemma consume_caps (n : nat) (x : mstate) : m_caps (consume n x) = m_caps x.
Proof.
  revert x; induction n as [|n IH]; intros x; simpl; [reflexivity|].
  destruct (m_rest x); [reflexivity|]. now rewrite IH.
Qed.

Lemma starts_with_length (ic : bool) (p s : string) :
  starts_with ic p s = true -> String.length p <= String.length s.
Proof.
  revert s; induction p as [|c p IH]; intros [|d s]; simpl; intros H;
    try lia; try discriminate.
  apply andb_true_iff in H. destruct H as [_ H]. apply IH in H; lia.
Qed.

(** A literal prefix of a pattern is matched character by character. *)
Lemma rmatch_lits (ic : bool) (t : string) (r : regex) (x : mstate) k :
  rmatch ic (lits t r) x k =
  if starts_with ic t (m_rest x)
  then rmatch ic r (consume (String.length t) x) k
  else None.
Proof.
  revert x; induction t as [|c t IH]; intros x; [reflexivity|].
  simpl. destruct (m_rest x) as [|d rest]; [reflexivity|].
  destruct (char_eq ic c d); [|reflexivity].
  now rewrite IH.
Qed.

Lemma find_char_bound (c : ascii) (s : string) (n : nat) :
  find_char c s = Some n -> n < String.length s.
Proof.
  revert n; induction s as [|d s IH]; intros n; simpl; [discriminate|].
  destruct (Ascii.eqb d c); [intros [= <-]; lia|].
  destruct (find_char c s); simpl; [|discriminate].
  intros [= <-]. specialize (IH _ eq_refl). lia.
Qed.

(** [[^>]*>] runs to the first [>]: no shorter or longer run of [[^>]*]
    is followed by [>]. *)
Lemma star_loop_notgt (ic : bool) (r : regex) k (n : nat) (x : mstate) :
  String.length (m_rest x) < n ->
  star_loop ic (Cls true [(">"%char, ">"%char)])
    (fun y => rmatch ic (Seq (Chr ">") r) y k) n x =
  match find_char ">" (m_rest x) with
  | Some i => rmatch ic r (consume (S i) x) k
  | None => None
  end.
Proof.
  revert x. induction n as [|n IH]; intros x Hn; [lia|].
  cbn [star_loop rmatch find_char consume].
  destruct (m_rest x) as [|d rest] eqn:E; [reflexivity|].
  rewrite in_ranges_gt, char_eq_gt.
  cbn [find_char].
  destruct (Ascii.eqb d ">") eqn:Ed; cbn [xorb negb].
  - reflexivity.
  - cbn [advance m_idx].
    replace (S (m_idx x) =? m_idx x) with false
      by (symmetry; apply Nat.eqb_neq; lia).
    rewrite IH by (cbn [advance m_rest]; cbn [String.length] in Hn; lia).
    cbn [advance m_rest].
    destruct (find_char ">" rest) as [i|]; cbn [option_map]; [|reflexivity].
    destruct (rmatch ic r _ k); reflexivity.
Qed.

Lemma rmatch_notgt (ic : bool) (r : regex) (x : mstate) k :
  rmatch ic (Seq (Star (Cls true [(">"%char, ">"%char)])) (Seq (Chr ">") r)) x k =
  match find_char ">" (m_rest x) with
  | Some i => rmatch ic r (consume (S i) x) k
  | None => None
  end.
Proof.
  exact (star_loop_notgt ic r k _ x (Nat.lt_succ_diag_r _)).
Qed.

End MatcherFacts.

(* ================================================================== *)
(** * The constructor on the sources of the class *)

Section ParserFacts.

Import RegExp Ref.

Lemma classify_ident (c : ascii) : is_ident_char c = true -> classify c = TLit.
Proof. each_char c. Qed.

Lemma quantified_ident (a : regex) (c : ascii) (s : string) :
  is_ident_char c = true -> quantified a (String c s) = Ret (a, String c s).
Proof. each_char c. Qed.

Lemma is_alnum_ident (c : ascii) : is_alnum c = true -> is_ident_char c = true.
Proof. unfold is_ident_char. now intros ->. Qed.

Lemma unquantified_append (t s : string) :
  is_ident t = true -> unquantified s -> unquantified (t ++ s).
Proof.
  destruct t as [|c t]; simpl; [auto|].
  intros H _ a. apply andb_true_iff in H.
  now apply quantified_ident.
Qed.

Lemma bind_ret_parsed (m : outcome parsed) :
  ('(r, rest, g) <- m ;; Ret (r, rest, g)) = m.
Proof. destruct m as [[[r rest] g]| |]; reflexivity. Qed.

(** A run of identifier characters in a source is read as that many
    literals. *)
Lemma parse_alt_lits (t : string) (f : nat) (s : string) (g : nat) :
  is_ident t = true -> unquantified s ->
  parse_alt (String.length t + f) (t ++ s) g =
  '(r, rest, g1) <- parse_alt f s g ;; Ret (lits t r, rest, g1).
Proof.
  intros Ht Hs. induction t as [|c t IH].
  - simpl. now rewrite bind_ret_parsed.
  - simpl in Ht. apply andb_true_iff in Ht. destruct Ht as [Hc Ht].
    cbn [String.length Nat.add append parse_alt].
    rewrite (classify_ident _ Hc).
    rewrite (unquantified_append t s Ht Hs (Chr c)). cbn [bind].
    rewrite (IH Ht).
    destruct (parse_alt f s g) as [[[r rest] g1]| |]; reflexivity.
Qed.

(** More fuel does not change a result. *)
Lemma parse_fuel_mono (f : nat) :
  (forall s g x f', parse_disj f s g = Ret x -> f <= f' ->
                    parse_disj f' s g = Ret x) /\
  (forall s g x f', parse_alt f s g = Ret x -> f <= f' ->
                    parse_alt f' s g = Ret x).
Proof.
  induction f as [|f [IHd IHa]]; [split; intros; discriminate|].
  assert (Ha : forall s g f' (k : parsed -> outcome parsed) x,
             bind (parse_alt f s g) k = Ret x -> f <= f' ->
             bind (parse_alt f' s g) k = Ret x).
  { intros s g f' k x H Hle.
    destruct (parse_alt f s g) as [y| |] eqn:E; try discriminate.
    now rewrite (IHa _ _ _ _ E Hle). }
  assert (Hd : forall s g f' (k : parsed -> outcome parsed) x,
             bind (parse_disj f s g) k = Ret x -> f <= f' ->
             bind (parse_disj f' s g) k = Ret x).
  { intros s g f' k x H Hle.
    destruct (parse_disj f s g) as [y| |] eqn:E; try discriminate.
    now rewrite (IHd _ _ _ _ E Hle). }
  split; intros s g x [|f'] H Hle; try lia;
    assert (Hf : f <= f') by lia; cbn [parse_disj parse_alt] in *.
  - destruct (parse_alt f s g) as [[[a rest] g1]| |] eqn:E; try discriminate.
    rewrite (IHa _ _ _ _ E Hf). cbn [bind] in *.
    destruct (strip "|" rest); [|exact H].
    now apply Hd.
  - destruct s as [|c s']; [exact H|].
    destruct (classify c); try exact H; try (now apply Ha).
    + destruct (quantified (Chr c) s') as [[a s2]| |]; try discriminate.
      cbn [bind] in *. now apply Ha.
    + destruct s' as [|e s2]; [exact H|].
      destruct (Ascii.eqb e "b"); [now apply Ha|].
      destruct (Ascii.eqb e "B"); [now apply Ha|].
      destruct (is_alnum e); [exact H|].
      destruct (quantified (Chr e) s2) as [[a s3]| |]; try discriminate.
      cbn [bind] in *. now apply Ha.
    + destruct (strip "^" s') as [s2|];
        match goal with
        | |- context [parse_class ?b ?acc] =>
            destruct (parse_class b acc) as [[ranges s3]| |]; try discriminate
        end; cbn [bind] in *;
        match goal with
        | |- context [quantified ?a ?b] =>
            destruct (quantified a b) as [[a' s4]| |]; try discriminate
        end; cbn [bind] in *; now apply Ha.
    + destruct (strip "?" s'); [exact H|].
      destruct (parse_disj f s' (S g)) as [[[body s2] g1]| |] eqn:E;
        try discriminate.
      rewrite (IHd _ _ _ _ E Hf). cbn [bind] in *.
      destruct (strip ")" s2) as [s3|]; [|exact H].
      destruct (quantified (Group (S g) body) s3) as [[a s4]| |];
        try discriminate.
      cbn [bind] in *. now apply Ha.
Qed.

Lemma parse_disj_fuel (f f' : nat) (s : string) (g : nat) (x : parsed) :
  parse_disj f s g = Ret x -> f <= f' -> parse_disj f' s g = Ret x.
Proof. apply parse_fuel_mono. Qed.

Lemma create_from (F : nat) (src flags : string) (r : regex) (n : nat)
  (i g : bool) :
  parse_disj F src 0 = Ret (r, "", n) ->
  F <= 2 * String.length src + 2 ->
  parse_flags flags false false = Ret (i, g) ->
  create src flags = Ret (mk r n i g).
Proof.
  intros H Hle Hf. unfold create.
  rewrite (parse_disj_fuel _ _ _ _ _ H Hle). cbn [bind].
  now rewrite Hf.
Qed.

Lemma unquantified_class : unquantified "[^>]*>".
Proof. intros a. reflexivity. Qed.

Lemma unquantified_gt : unquantified ">".
Proof. intros a. reflexivity. Qed.

Lemma create_open (T flags : string) (i g : bool) :
  is_ident T = true ->
  parse_flags flags false false = Ret (i, g) ->
  create ("<" ++ T ++ "[^>]*>") flags = Ret (mk (open_re T) 0 i g).
Proof.
  intros HT Hf.
  apply create_from with (F := S (S (String.length T + 5))); trivial.
  - cbn [append parse_disj parse_alt].
    change (classify "<") with TLit. cbv iota.
    rewrite (unquantified_append T _ HT unquantified_class). cbn [bind].
    rewrite (parse_alt_lits T 5 _ 0 HT unquantified_class).
    reflexivity.
  - cbn [append String.length]. rewrite length_append.
    cbn [String.length]. lia.
Qed.

Lemma create_open_anchored (T flags : string) (i g : bool) :
  is_ident T = true ->
  parse_flags flags false false = Ret (i, g) ->
  create ("^<" ++ T ++ "[^>]*>") flags = Ret (mk (Seq Bol (open_re T)) 0 i g).
Proof.
  intros HT Hf.
  apply create_from with (F := S (S (S (String.length T + 5)))); trivial.
  - cbn [append parse_disj parse_alt].
    change (classify "^") with TBol. change (classify "<") with TLit.
    cbv iota.
    rewrite (unquantified_append T _ HT unquantified_class). cbn [bind].
    rewrite (parse_alt_lits T 5 _ 0 HT unquantified_class).
    reflexivity.
  - cbn [append String.length]. rewrite length_append.
    cbn [String.length]. lia.
Qed.

Lemma create_close (T flags : string) (i g : bool) :
  is_ident T = true ->
  parse_flags flags false false = Ret (i, g) ->
  create ("</" ++ T ++ ">") flags = Ret (mk (close_re T) 0 i g).
Proof.
  intros HT Hf.
  apply create_from with (F := S (S (S (String.length T + 3)))); trivial.
  - cbn [append parse_disj parse_alt].
    change (classify "<") with TLit. change (classify "/") with TLit.
    cbv iota. cbn [quantified bind].
    rewrite (unquantified_append T _ HT unquantified_gt). cbn [bind].
    rewrite (parse_alt_lits T 3 _ 0 HT unquantified_gt).
    reflexivity.
  - cbn [append String.length]. rewrite length_append.
    cbn [String.length]. lia.
Qed.

Lemma create_close_anchored (T flags : string) (i g : bool) :
  is_ident T = true ->
  parse_flags flags false false = Ret (i, g) ->
  create ("^</" ++ T ++ ">") flags = Ret (mk (Seq Bol (close_re T)) 0 i g).
Proof.
  intros HT Hf.
  apply create_from with (F := S (S (S (S (String.length T + 3))))); trivial.
  - cbn [append parse_disj parse_alt].
    change (classify "^") with TBol.
    change (classify "<") with TLit. change (classify "/") with TLit.
    cbv iota. cbn [quantified bind].
    rewrite (unquantified_append T _ HT unquantified_gt). cbn [bind].
    rewrite (parse_alt_lits T 3 _ 0 HT unquantified_gt).
    reflexivity.
  - cbn [append String.length]. rewrite length_append.
    cbn [String.length]. lia.
Qed.

End ParserFacts.

(* ================================================================== *)
(** * Opening and closing tags *)

Section TagPatterns.

Import RegExp Ref.

Lemma consume_consume (a b : nat) (x : mstate) :
  consume a (consume b x) = consume (b + a) x.
Proof.
  revert x; induction b as [|b IH]; intros x; [reflexivity|].
  cbn [consume Nat.add]. destruct (m_rest x) as [|d rest] eqn:E.
  - destruct a; cbn [consume]; now rewrite ?E.
  - apply IH.
Qed.

Lemma lits_append (a b : string) (r : regex) :
  lits (a ++ b) r = lits a (lits b r).
Proof. induction a; simpl; congruence. Qed.

Lemma open_len_bound (T s : string) (n : nat) :
  open_len T s = Some n -> S (String.length T) < n <= String.length s.
Proof.
  unfold open_len.
  destruct (starts_with true (String "<" T) s) eqn:E; [|discriminate].
  apply starts_with_length in E. cbn [String.length] in E.
  destruct (find_char ">" (drop (S (String.length T)) s)) as [i|] eqn:F;
    [|discriminate].
  intros [= <-]. apply find_char_bound in F. rewrite drop_length in F. lia.
Qed.

Lemma close_len_bound (T s : string) (n : nat) :
  close_len T s = Some n -> 0 < n <= String.length s.
Proof.
  unfold close_len.
  destruct (starts_with true ("</" ++ T ++ ">") s) eqn:E; [|discriminate].
  apply starts_with_length in E. cbn [append String.length] in E.
  rewrite length_append in E. cbn [String.length] in E.
  intros [= <-]. lia.
Qed.

Lemma open_re_decided (T : string) : decided_by (open_re T) (open_len T).
Proof.
  intros x k. unfold open_len.
  change (open_re T)
    with (lits (String "<" T) (Seq (Star notgt) (Seq (Chr ">") Eps))).
  rewrite rmatch_lits.
  destruct (starts_with true (String "<" T) (m_rest x)) eqn:E; [|reflexivity].
  unfold notgt. rewrite rmatch_notgt.
  rewrite consume_rest by (eapply starts_with_length; eassumption).
  cbn [String.length].
  destruct (find_char ">" (drop (S (String.length T)) (m_rest x))) as [i|];
    [|reflexivity].
  cbn [option_map rmatch]. now rewrite consume_consume.
Qed.

Lemma close_re_decided (T : string) : decided_by (close_re T) (close_len T).
Proof.
  intros x k. unfold close_len.
  replace (close_re T) with (lits ("</" ++ T ++ ">") Eps)
    by (cbn [append lits]; rewrite lits_append; reflexivity).
  rewrite rmatch_lits.
  destruct (starts_with true ("</" ++ T ++ ">") (m_rest x)); [|reflexivity].
  cbn [rmatch append String.length]. rewrite length_append.
  cbn [String.length]. do 2 f_equal. lia.
Qed.

Lemma first_at_found (L : string -> option nat) (s : string) (i : nat) :
  first_at L s = Some i ->
  i <= String.length s /\ exists n, L (drop i s) = Some n.
Proof.
  revert i; induction s as [|c s IH]; intros i; cbn [first_at].
  - destruct (L "") as [n|] eqn:E; [|discriminate].
    intros [= <-]. split; [lia | now exists n].
  - destruct (L (String c s)) as [n|] eqn:E.
    + intros [= <-]. split; [lia | now exists n].
    + destruct (first_at L s) as [j|]; [|discriminate].
      intros [= <-]. destruct (IH j eq_refl) as [Hj Hn].
      split; [cbn [String.length]; lia | exact Hn].
Qed.

Section Decided.

Variables (r : regex) (L : string -> option nat).
Hypothesis HL : decided_by r L.
Hypothesis Hbound : forall s n, L s = Some n -> n <= String.length s.

Lemma scan_decided (prev : option ascii) (rest : string) (idx : nat) :
  scan true r prev rest idx =
  match first_at L rest with
  | Some i =>
      match L (drop i rest) with
      | Some n => Some (mkMatch (idx + i) (take n (drop i rest)) [])
      | None => None
      end
  | None => None
  end.
Proof.
  revert prev idx; induction rest as [|c rest IH]; intros prev idx;
    cbn [scan first_at]; rewrite HL; cbn [m_rest].
  - destruct (L "") as [n|] eqn:E; [|reflexivity].
    cbn [drop]. rewrite E, consume_idx, consume_caps, Nat.add_0_r;
      [|now apply Hbound].
    cbn [m_idx m_caps]. now replace (idx + n - idx) with n by lia.
  - destruct (L (String c rest)) as [n|] eqn:E.
    + cbn [drop]. rewrite E, consume_idx, consume_caps, Nat.add_0_r;
        [|now apply Hbound].
      cbn [m_idx m_caps]. now replace (idx + n - idx) with n by lia.
    + rewrite IH. destruct (first_at L rest) as [i|]; [|reflexivity].
      cbn [option_map drop]. now rewrite Nat.add_succ_r.
Qed.

Lemma search_decided (s : string) (n : nat) (g : bool) :
  search s (mk r n true g) = first_at L s.
Proof.
  unfold search, exec_at. cbn [seek ignoreCase pattern].
  rewrite scan_decided.
  destruct (first_at L s) as [i|] eqn:E; [|reflexivity].
  destruct (first_at_found _ _ _ E) as [_ [m Hm]]. now rewrite Hm.
Qed.

Lemma scan_anchored (c : ascii) (rest : string) (idx : nat) :
  scan true (Seq Bol r) (Some c) rest idx = None.
Proof.
  revert c idx; induction rest as [|d rest IH]; intros c idx;
    cbn [scan rmatch m_prev]; [reflexivity | apply IH].
Qed.

Lemma str_match_anchored (s : string) (n : nat) (g : bool) :
  str_match s (mk (Seq Bol r) n true g) =
  match L s with
  | Some len => Some (mkMatch 0 (take len s) [])
  | None => None
  end.
Proof.
  unfold str_match, exec_at. cbn [seek ignoreCase pattern].
  destruct s as [|c s]; cbn [scan rmatch m_prev]; rewrite HL; cbn [m_rest].
  - destruct (L "") as [len|] eqn:E; [|reflexivity].
    rewrite consume_idx, consume_caps by (now apply Hbound).
    cbn [m_idx m_caps]. now rewrite Nat.sub_0_r.
  - destruct (L (String c s)) as [len|] eqn:E.
    + rewrite consume_idx, consume_caps by (now apply Hbound).
      cbn [m_idx m_caps]. now rewrite Nat.sub_0_r.
    + apply scan_anchored.
Qed.

End Decided.

End TagPatterns.

(* ================================================================== *)
(** * [extractElement] on a tag name *)

Section ExtractFacts.

Import RegExp Ref HtmlParser.

Lemma ends_with_cons (c d : ascii) (s : string) :
  ends_with c s = true -> ends_with c (String d s) = true.
Proof. destruct s; [discriminate | auto]. Qed.

Lemma ends_with_append (c : ascii) (a b : string) :
  ends_with c b = true -> ends_with c (a ++ b) = true.
Proof.
  intros H. induction a as [|d a IH]; [exact H|].
  cbn [append]. now apply ends_with_cons.
Qed.

Lemma ends_with_has_char (c : ascii) (s : string) :
  ends_with c s = true -> has_char c s = true.
Proof.
  induction s as [|d s IH]; [discriminate|].
  destruct s as [|e s].
  - cbn. intros H. rewrite Ascii.eqb_sym, H. reflexivity.
  - intros H. specialize (IH H). cbn [has_char] in *.
    rewrite IH. apply orb_true_r.
Qed.

Lemma find_char_ends (c : ascii) (s : string) (i : nat) :
  find_char c s = Some i -> ends_with c (take (S i) s) = true.
Proof.
  revert i; induction s as [|d s IH]; intros i; cbn [find_char]; [discriminate|].
  destruct (Ascii.eqb d c) eqn:E.
  - intros [= <-]. cbn. destruct s; exact E.
  - destruct (find_char c s) as [j|]; [|discriminate].
    intros [= <-]. cbn [take]. apply ends_with_cons. now apply IH.
Qed.

Lemma open_len_ends (T s : string) (n : nat) :
  open_len T s = Some n -> ends_with ">" (take n s) = true.
Proof.
  unfold open_len.
  destruct (starts_with true (String "<" T) s); [|discriminate].
  destruct (find_char ">" (drop (S (String.length T)) s)) as [i|] eqn:F;
    [|discriminate].
  cbn [option_map]. intros [= E].
  replace n with (S (String.length T) + S i) by lia.
  rewrite take_add.
  apply ends_with_append. now apply find_char_ends.
Qed.

Lemma starts_with_ends (p s : string) :
  starts_with true (p ++ ">") s = true ->
  ends_with ">" (take (String.length p + 1) s) = true.
Proof.
  revert s; induction p as [|c p IH]; intros [|d s];
    cbn [append starts_with String.length Nat.add take]; try discriminate.
  - rewrite char_eq_gt. intros H. apply andb_true_iff in H.
    destruct H as [H _]. destruct s; exact H.
  - intros H. apply andb_true_iff in H. destruct H as [_ H].
    apply IH in H. now apply ends_with_cons.
Qed.

Lemma close_len_ends (T s : string) (n : nat) :
  close_len T s = Some n -> ends_with ">" (take n s) = true.
Proof.
  unfold close_len.
  destruct (starts_with true ("</" ++ T ++ ">") s) eqn:E; [|discriminate].
  intros [= <-].
  change ("</" ++ T ++ ">") with (("</" ++ T) ++ ">") in E.
  apply starts_with_ends in E. rewrite length_append in E.
  cbn [String.length] in E.
  now replace (String.length T + 3) with (2 + String.length T + 1) by lia.
Qed.

Lemma open_len_le (T s : string) (n : nat) :
  open_len T s = Some n -> n <= String.length s.
Proof. intros H. apply open_len_bound in H. lia. Qed.

Lemma close_len_le (T s : string) (n : nat) :
  close_len T s = Some n -> n <= String.length s.
Proof. intros H. apply close_len_bound in H. lia. Qed.

Lemma flags_i : parse_flags "i" false false = Ret (true, false).
Proof. reflexivity. Qed.

Lemma flags_gi : parse_flags "gi" false false = Ret (true, true).
Proof. reflexivity. Qed.

Lemma reached_step (html : string) (pos i n pos' : nat) (s : string) :
  s = drop (pos + i) html ->
  pos + i <= String.length html ->
  0 < n <= String.length s ->
  ends_with ">" (take n s) = true ->
  reached html (pos + (i + n)) pos' ->
  reached html pos pos'.
Proof.
  intros -> Hi Hn He [-> | [H1 H2]]; right.
  - rewrite drop_length in Hn. split; [lia|].
    rewrite Nat.add_assoc, take_add. now apply ends_with_append.
  - split; [lia | exact H2].
Qed.

Lemma extract_loop_total (T : string) (html : string) :
  is_ident T = true ->
  forall fuel depth pos,
    String.length html - pos < fuel ->
    exists pos', extract_loop fuel html T depth pos = Ret pos'
                 /\ reached html pos pos'.
Proof.
  intros HT. induction fuel as [|fuel IH]; intros depth pos Hf; [lia|].
  cbn [extract_loop].
  destruct ((0 <? depth) && (pos <? String.length html)) eqn:C;
    [|exists pos; split; [reflexivity | now left]].
  apply andb_true_iff in C. destruct C as [_ C]. apply Nat.ltb_lt in C.
  rewrite (create_open T "i" true false HT flags_i).
  rewrite (create_close T "i" true false HT flags_i). cbn [bind].
  rewrite (search_decided _ _ (open_re_decided T) (open_len_le T)).
  rewrite (search_decided _ _ (close_re_decided T) (close_len_le T)).
  destruct (first_at (close_len T) (drop pos html)) as [nc|] eqn:Ec;
    [|exists pos; split; [reflexivity | now left]].
  assert (Hclose :
    exists pos',
      (re <- create ("^</" ++ T ++ ">") "i" ;;
       len <- match0_length (str_match (drop (pos + nc) html) re) ;;
       extract_loop fuel html T (depth - 1) (pos + (nc + len))) = Ret pos'
      /\ reached html pos pos').
  { rewrite (create_close_anchored T "i" true false HT flags_i). cbn [bind].
    rewrite (str_match_anchored _ _ (close_re_decided T) (close_len_le T)).
    destruct (first_at_found _ _ _ Ec) as [Hnc [n Hn]].
    rewrite drop_drop in Hn. rewrite Hn. cbn [match0_length whole bind].
    pose proof (close_len_bound _ _ _ Hn) as Hb.
    pose proof (close_len_ends _ _ _ Hn) as He.
    rewrite drop_length in Hnc.
    rewrite take_length, Nat.min_l by lia.
    destruct (IH (depth - 1) (pos + (nc + n))) as [pos' [E R]];
      [rewrite drop_length in Hb; lia|].
    exists pos'. split; [exact E|].
    eapply reached_step; eauto. lia. }
  destruct (first_at (open_len T) (drop pos html)) as [no|] eqn:Eo;
    [|exact Hclose].
  destruct (no <? nc); [|exact Hclose].
  rewrite (create_open_anchored T "i" true false HT flags_i). cbn [bind].
  rewrite (str_match_anchored _ _ (open_re_decided T) (open_len_le T)).
  destruct (first_at_found _ _ _ Eo) as [Hno [n Hn]].
  rewrite drop_drop in Hn. rewrite Hn. cbn [match0_length whole bind].
  pose proof (open_len_bound _ _ _ Hn) as Hb.
  pose proof (open_len_ends _ _ _ Hn) as He.
  rewrite drop_length in Hno.
  rewrite take_length, Nat.min_l by lia.
  destruct (IH (depth + 1) (pos + (no + n))) as [pos' [E R]];
    [rewrite drop_length in Hb; lia|].
  exists pos'. split; [exact E|].
  eapply reached_step; eauto; lia.
Qed.

End ExtractFacts.

(* ================================================================== *)
(** * Properties of [extractElement] and of the finders *)

Section ElementFacts.

Import RegExp Ref HtmlParser.

Lemma substring2_le (s : string) (a b : nat) :
  a <= b -> substring2 s a b = take (b - a) (drop a s).
Proof.
  intros H. unfold substring2. now rewrite Nat.max_r, Nat.min_l by lia.
Qed.

Lemma truthy_take (n : nat) (s : string) :
  0 < n <= String.length s -> truthy (take n s) = true.
Proof. destruct n, s; cbn; intros; try lia; reflexivity. Qed.


(** The opening tag at [startPos] is found, and the loop starts right
    after it. *)
Lemma extractElement_open (html T : string) (startPos n : nat) :
  is_ident T = true ->
  open_len T (drop startPos html) = Some n ->
  extractElement html startPos T =
  pos <- extract_loop (S (String.length html)) html T 1 (startPos + n) ;;
  Ret (Some (substring2 html startPos pos)).
Proof.
  intros HT Hn. unfold extractElement.
  rewrite (create_open T "gi" true true HT flags_gi).
  rewrite (create_close T "gi" true true HT flags_gi).
  rewrite (create_open_anchored T "i" true false HT flags_i). cbn [bind].
  rewrite (str_match_anchored _ _ (open_re_decided T) (open_len_le T)).
  rewrite Hn. cbn [whole].
  apply open_len_le in Hn.
  now rewrite take_length, Nat.min_l.
Qed.

Lemma extractElement_none (html T : string) (startPos : nat) :
  is_ident T = true ->
  open_len T (drop startPos html) = None ->
  extractElement html startPos T = Ret None.
Proof.
  intros HT Hn. unfold extractElement.
  rewrite (create_open T "gi" true true HT flags_gi).
  rewrite (create_close T "gi" true true HT flags_gi).
  rewrite (create_open_anchored T "i" true false HT flags_i). cbn [bind].
  rewrite (str_match_anchored _ _ (open_re_decided T) (open_len_le T)).
  now rewrite Hn.
Qed.


Lemma ends_with_suffix (c : ascii) (a b : string) :
  b <> "" -> ends_with c (a ++ b) = true -> ends_with c b = true.
Proof.
  intros Hb. induction a as [|d a IH]; [auto|].
  cbn [append]. destruct (a ++ b) eqn:E.
  - destruct a; cbn in E; [congruence | discriminate].
  - exact IH.
Qed.

Lemma extractElement_total (html T : string) (startPos : nat) :
  is_ident T = true ->
  extractElement html startPos T = Ret None \/
  exists e, extractElement html startPos T = Ret (Some e)
            /\ span_at html startPos e.
Proof.
  intros HT.
  destruct (open_len T (drop startPos html)) as [n|] eqn:Hn;
    [right | left; now apply extractElement_none].
  rewrite (extractElement_open _ _ _ _ HT Hn).
  destruct (extract_loop_total T html HT (S (String.length html)) 1
              (startPos + n)) as [pos [E R]]; [lia|].
  rewrite E. cbn [bind].
  pose proof (open_len_bound _ _ _ Hn) as Hb. rewrite drop_length in Hb.
  pose proof (open_len_ends _ _ _ Hn) as He.
  assert (Hpos : startPos + n <= pos <= String.length html
                 /\ ends_with ">" (take pos html) = true).
  { destruct R as [-> | [R1 R2]].
    - split; [lia|]. rewrite take_add. now apply ends_with_append.
    - split; [lia | exact R2]. }
  destruct Hpos as [Hp Hends].
  exists (substring2 html startPos pos). split; [reflexivity|].
  exists (pos - startPos). rewrite substring2_le by lia.
  repeat split; try lia.
  replace pos with (startPos + (pos - startPos)) in Hends by lia.
  rewrite take_add in Hends. apply ends_with_suffix in Hends; [exact Hends|].
  intros E0. apply (f_equal String.length) in E0.
  rewrite take_length, drop_length in E0. cbn in E0. lia.
Qed.

End ElementFacts.

(* ================================================================== *)
(** * [exec] and the scanning loop *)

Section ExecFacts.

Import RegExp Ref HtmlParser.

Lemma seek_some (n : nat) (prev p : option ascii) (s rest : string) :
  seek n prev s = Some (p, rest) -> n <= String.length s /\ rest = drop n s.
Proof.
  revert prev s; induction n as [|n IH]; intros prev s; cbn [seek].
  - intros [= _ <-]. split; [lia | reflexivity].
  - destruct s as [|c s]; [discriminate|]. intros H.
    apply IH in H. cbn [String.length drop]. split; [lia | tauto].
Qed.

Lemma seek_succ (n : nat) (prev p : option ascii) (s rest : string) (c : ascii) :
  seek n prev s = Some (p, String c rest) ->
  seek (S n) prev s = Some (Some c, rest).
Proof.
  revert prev s; induction n as [|n IH]; intros prev s.
  - cbn [seek]. now intros [= _ ->].
  - cbn [seek]. destruct s as [|d s]; [discriminate|].
    intros H. apply IH in H. exact H.
Qed.

(** A match found by [scan] lies at or after the start, within the
    input, and its text is the input there. *)
Lemma scan_found (ic : bool) (r : regex) (rest : string) :
  forall prev idx m,
    scan ic r prev rest idx = Some m ->
    idx <= index m
    /\ end_index m <= idx + String.length rest
    /\ whole m = take (String.length (whole m)) (drop (index m - idx) rest).
Proof.
  induction rest as [|c rest IH]; intros prev idx m; cbn [scan].
  - destruct (rmatch ic r _ Some) as [y|]; [|discriminate].
    intros [= <-]. unfold end_index. cbn [index whole take String.length].
    destruct (m_idx y - idx); cbn; repeat split; lia.
  - destruct (rmatch ic r _ Some) as [y|].
    + intros [= <-]. unfold end_index. cbn [index whole].
      rewrite Nat.sub_diag. cbn [drop]. rewrite take_idem, take_length.
      repeat split; try lia.
    + intros H. apply IH in H. destruct H as [H1 [H2 H3]].
      cbn [String.length]. repeat split; try lia.
      replace (index m - idx) with (S (index m - S idx)) by lia.
      exact H3.
Qed.

Lemma scan_skip (ic : bool) (r : regex) (prev : option ascii) (rest : string)
  (idx : nat) (m : match_result) :
  scan ic r prev rest idx = Some m -> idx < index m ->
  exists c rest', rest = String c rest'
                  /\ scan ic r (Some c) rest' (S idx) = Some m.
Proof.
  destruct rest as [|c rest]; cbn [scan];
    destruct (rmatch ic r _ Some) as [y|]; try discriminate;
    try (intros [= <-]; cbn [index]; lia).
  intros H _. now exists c, rest.
Qed.

Lemma exec_at_found (re : RegExp.t) (s : string) (li : nat) (m : match_result) :
  exec_at re s li = Some m ->
  li <= index m /\ end_index m <= String.length s
  /\ whole m = take (String.length (whole m)) (drop (index m) s).
Proof.
  unfold exec_at. destruct (seek li None s) as [[prev rest]|] eqn:E;
    [|discriminate].
  apply seek_some in E. destruct E as [Hli ->]. intros H.
  apply scan_found in H. destruct H as [H1 [H2 H3]].
  rewrite drop_length in H2. rewrite drop_drop in H3.
  repeat split; try lia.
  now replace (li + (index m - li)) with (index m) in H3 by lia.
Qed.

(** Started again anywhere up to the match it found, [exec] finds the
    same match. *)
Lemma exec_at_again (re : RegExp.t) (s : string) (m : match_result) :
  forall d li, exec_at re s li = Some m -> index m = li + d ->
               exec_at re s (index m) = Some m.
Proof.
  induction d as [|d IH]; intros li H E.
  - now replace (index m) with li by lia.
  - apply (IH (S li)); [|lia].
    unfold exec_at in *.
    destruct (seek li None s) as [[prev rest]|] eqn:Es; [|discriminate].
    apply scan_skip in H; [|lia]. destruct H as [c [rest' [-> H]]].
    now rewrite (seek_succ _ _ _ _ _ _ Es).
Qed.

Section Loop.

Variables (html : string) (re : RegExp.t) (tagOf : match_result -> string).

(** An empty match leaves [lastIndex] where the match is: the loop then
    finds it again and again. *)
Lemma exec_loop_at_stuck (li : nat) (m : match_result) :
  exec re html li = (Some m, li) ->
  forall fuel acc l, exec_loop_at fuel html re tagOf li acc <> Ret l.
Proof.
  intros E. induction fuel as [|fuel IH]; intros acc l; [discriminate|].
  cbn [exec_loop_at]. rewrite E.
  destruct (extractElement html (index m) (tagOf m)) as [[e|]| |];
    cbn [bind]; try discriminate; try apply IH.
  destruct (truthy e); apply IH.
Qed.

Hypothesis Hglobal : global re = true.

Lemma exec_global (li : nat) :
  exec re html li =
  match exec_at re html li with
  | Some m => (Some m, end_index m)
  | None => (None, 0)
  end.
Proof. unfold exec. now rewrite Hglobal. Qed.

Lemma extract_loop_ge (T : string) :
  forall fuel depth pos pos',
    extract_loop fuel html T depth pos = Ret pos' -> pos <= pos'.
Proof.
  induction fuel as [|fuel IH]; intros depth pos pos'; [discriminate|].
  cbn [extract_loop].
  destruct ((0 <? depth) && (pos <? String.length html));
    [|intros [= <-]; lia].
  destruct (create ("<" ++ T ++ "[^>]*>") "i") as [reOpen| |];
    try discriminate.
  destruct (create ("</" ++ T ++ ">") "i") as [reClose| |];
    try discriminate.
  cbn [bind].
  destruct (search (drop pos html) reClose) as [nc|]; [|intros [= <-]; lia].
  match goal with
  | |- (if ?b then _ else _) = _ -> _ => destruct b
  end.
  - destruct (create ("^<" ++ T ++ "[^>]*>") "i") as [re'| |];
      try discriminate. cbn [bind].
    destruct (match0_length _) as [len| |]; try discriminate. cbn [bind].
    intros H. apply IH in H. lia.
  - destruct (create ("^</" ++ T ++ ">") "i") as [re'| |];
      try discriminate. cbn [bind].
    destruct (match0_length _) as [len| |]; try discriminate. cbn [bind].
    intros H. apply IH in H. lia.
Qed.

Lemma extractElement_piece (T : string) (startPos : nat) (e : string) :
  extractElement html startPos T = Ret (Some e) -> piece_at html (startPos, e).
Proof.
  unfold extractElement.
  destruct (create ("<" ++ T ++ "[^>]*>") "gi") as [r1| |]; try discriminate.
  destruct (create ("</" ++ T ++ ">") "gi") as [r2| |]; try discriminate.
  destruct (create ("^<" ++ T ++ "[^>]*>") "i") as [r3| |]; try discriminate.
  cbn [bind].
  destruct (str_match (drop startPos html) r3) as [m|]; [|discriminate].
  destruct (extract_loop _ html T 1 _) as [pos| |] eqn:E; try discriminate.
  cbn [bind]. intros [= <-]. apply extract_loop_ge in E.
  exists (pos - startPos). cbn [fst snd]. apply substring2_le. lia.
Qed.

Lemma exec_loop_at_sorted :
  forall fuel li acc l,
    exec_loop_at fuel html re tagOf li acc = Ret l ->
    exists l', l = (acc ++ l')%list
               /\ StronglySorted lt (map fst l')
               /\ Forall (fun pe => li <= fst pe) l'
               /\ Forall (piece_at html) l'.
Proof.
  induction fuel as [|fuel IH]; intros li acc l; [discriminate|].
  cbn [exec_loop_at]. rewrite exec_global.
  destruct (exec_at re html li) as [m|] eqn:E.
  2:{ intros [= <-]. exists []. rewrite app_nil_r. repeat split; constructor. }
  destruct (exec_at_found _ _ _ _ E) as [Hli [Hend Hw]].
  assert (Hskip : forall acc', exec_loop_at fuel html re tagOf (end_index m) acc'
                               = Ret l ->
                  exists l', l = (acc' ++ l')%list
                             /\ StronglySorted lt (map fst l')
                             /\ Forall (fun pe => li <= fst pe) l'
                             /\ Forall (piece_at html) l').
  { intros acc' H. destruct (IH _ _ _ H) as [l' [-> [S1 [S2 S3]]]].
    exists l'. repeat split; auto.
    eapply Forall_impl; [|exact S2]. cbn. unfold end_index. intros; lia. }
  destruct (extractElement html (index m) (tagOf m)) as [[e|]| |] eqn:X;
    cbn [bind]; try discriminate; [|now apply Hskip].
  destruct (truthy e); [|now apply Hskip].
  intros H.
  assert (Hne : index m < end_index m).
  { destruct (Nat.eq_dec (end_index m) (index m)) as [Heq|Hneq];
      [|unfold end_index in *; lia].
    exfalso. refine (exec_loop_at_stuck (index m) m _ fuel _ l _).
    - rewrite exec_global.
      rewrite (exec_at_again re html m (index m - li) li E) by lia.
      now rewrite Heq.
    - rewrite <- Heq. exact H. }
  destruct (IH _ _ _ H) as [l' [-> [S1 [S2 S3]]]].
  exists ((index m, e) :: l'). rewrite <- app_assoc. split; [reflexivity|].
  split; [|split].
  - cbn [map fst]. constructor; [exact S1|].
    rewrite Forall_map. eapply Forall_impl; [|exact S2]. cbn. intros; lia.
  - constructor; [cbn; lia|].
    eapply Forall_impl; [|exact S2]. cbn. unfold end_index. intros; lia.
  - constructor; [|exact S3]. eapply extractElement_piece; eauto.
Qed.

(** The loop of the class is the recording loop without the offsets. *)
Lemma exec_loop_forget :
  forall fuel li acc,
    exec_loop fuel html re tagOf li (map snd acc) =
    l <- exec_loop_at fuel html re tagOf li acc ;; Ret (map snd l).
Proof.
  induction fuel as [|fuel IH]; intros li acc; [reflexivity|].
  cbn [exec_loop exec_loop_at].
  destruct (exec re html li) as [[m|] li']; [|reflexivity].
  destruct (extractElement html (index m) (tagOf m)) as [[e|]| |];
    cbn [bind]; try reflexivity; try apply IH.
  destruct (truthy e); [|apply IH].
  rewrite <- IH. now rewrite map_app.
Qed.

End Loop.

Lemma create_flags (src flags : string) (re : RegExp.t) (i g : bool) :
  parse_flags flags false false = Ret (i, g) ->
  create src flags = Ret re -> ignoreCase re = i /\ global re = g.
Proof.
  intros Hf. unfold create.
  destruct (parse_disj _ src 0) as [[[r rest] n]| |]; try discriminate.
  cbn [bind]. destruct rest; [|discriminate].
  rewrite Hf. cbn [bind]. intros [= <-]. now split.
Qed.

End ExecFacts.

(* ================================================================== *)
(** * [getText] *)

Section TextFacts.

Import RegExp Ref HtmlParser.

Lemma find_char_has_char (c : ascii) (s : string) :
  has_char c s = match find_char c s with Some _ => true | None => false end.
Proof.
  induction s as [|d s IH]; [reflexivity|].
  cbn [has_char find_char]. rewrite IH, Ascii.eqb_sym.
  destruct (Ascii.eqb d c); [reflexivity|].
  now destruct (find_char c s).
Qed.

(** The pattern [<[^>]*>] at a position: a [<] and everything up to the
    first [>] after it. *)
Lemma rmatch_tag (ic : bool) (x : mstate) k :
  rmatch ic (open_re "") x k =
  match m_rest x with
  | String d rest =>
      if Ascii.eqb d "<" then
        match find_char ">" rest with
        | Some i => k (consume (S (S i)) x)
        | None => None
        end
      else None
  | "" => None
  end.
Proof.
  unfold open_re. cbn [lits]. cbn [rmatch].
  destruct (m_rest x) as [|d rest] eqn:E; [reflexivity|].
  rewrite char_eq_lt. destruct (Ascii.eqb d "<"); [|reflexivity].
  change (rmatch ic (Seq (Star notgt) (Seq (Chr ">") Eps)) (advance x d rest) k
          = match find_char ">" rest with
            | Some i => k (consume (S (S i)) x)
            | None => None
            end).
  unfold notgt. rewrite rmatch_notgt. cbn [advance m_rest].
  destruct (find_char ">" rest) as [i|]; [|reflexivity].
  cbn [rmatch]. change (consume (S (S i)) x) with
    (match m_rest x with
     | String d rest => consume (S i) (advance x d rest)
     | "" => x
     end).
  now rewrite E.
Qed.

Lemma replace_tags (ic : bool) (rest : string) :
  (forall prev, replace_scan ic (open_re "") "" prev rest 0
                = strip_tags false rest)
  /\ (forall prev k, find_char ">" rest = Some k ->
        replace_scan ic (open_re "") "" prev rest (S k)
        = strip_tags true rest).
Proof.
  induction rest as [|c rest [IH0 IH1]]; split.
  - intros prev. cbn [replace_scan]. now rewrite rmatch_tag.
  - discriminate.
  - intros prev. cbn [replace_scan strip_tags]. rewrite rmatch_tag.
    cbn [m_rest]. rewrite find_char_has_char.
    destruct (Ascii.eqb c "<"); cbn [andb]; [|now rewrite IH0].
    destruct (find_char ">" rest) as [i|] eqn:F; [|now rewrite IH0].
    rewrite consume_idx
      by (apply find_char_bound in F; cbn [m_rest String.length]; lia).
    cbn [m_idx Nat.add append]. now apply IH1.
  - intros prev k. cbn [find_char replace_scan strip_tags].
    destruct (Ascii.eqb c ">").
    + intros [= <-]. apply IH0.
    + destruct (find_char ">" rest) as [j|]; [|discriminate].
      intros [= <-]. now apply IH1.
Qed.

Lemma create_tag : create "<[^>]*>" "g" = Ret (mk (open_re "") 0 false true).
Proof. reflexivity. Qed.

(** [getText] never throws: it is the text outside the tags, trimmed. *)
Lemma getText_strip_tags (s : string) :
  getText s = Ret (trim (strip_tags false s)).
Proof.
  unfold getText. rewrite create_tag. cbn [bind].
  unfold replace_all. cbn [ignoreCase pattern].
  now rewrite (proj1 (replace_tags false s)).
Qed.

Lemma strip_tags_closed (s : string) :
  tags_closed s = true ->
  forall inside, has_char "<" (strip_tags inside s) = false.
Proof.
  induction s as [|c s IH]; intros H inside; [now destruct inside|].
  cbn [tags_closed] in H. apply andb_true_iff in H. destruct H as [Hc Hs].
  cbn [strip_tags]. destruct inside.
  - destruct (Ascii.eqb c ">"); now apply IH.
  - destruct (Ascii.eqb c "<") eqn:E.
    + rewrite Hc. cbn [andb]. now apply IH.
    + cbn [andb has_char]. rewrite Ascii.eqb_sym, E. now apply IH.
Qed.

Lemma ends_with_closed (s : string) :
  ends_with ">" s = true -> tags_closed s = true.
Proof.
  induction s as [|c s IH]; [reflexivity|].
  destruct s as [|d s].
  - cbn. intros H. apply Ascii.eqb_eq in H. now subst.
  - intros H. change (ends_with ">" (String d s) = true) in H.
    change (tags_closed (String c (String d s)))
      with ((if Ascii.eqb c "<" then has_char ">" (String d s) else true)
            && tags_closed (String d s)).
    rewrite (IH H), andb_true_r.
    apply ends_with_has_char in H. rewrite H.
    now destruct (Ascii.eqb c "<").
Qed.

Lemma getText_no_lt (e : string) :
  ends_with ">" e = true ->
  exists t, getText e = Ret t /\ has_char "<" t = false.
Proof.
  intros H. exists (trim (strip_tags false e)).
  split; [apply getText_strip_tags|].
  apply has_char_trim. apply strip_tags_closed. now apply ends_with_closed.
Qed.

End TextFacts.

(* ================================================================== *)
(** * Termination of the scanning loop *)

Section LoopTotal.

Import RegExp Ref HtmlParser.

Variables (html : string) (re : RegExp.t) (tagOf : match_result -> string).

Hypothesis Hglobal : global re = true.

(** Every match is non-empty and hands a plain tag name on. *)
Hypothesis Hmatch :
  forall li m, exec_at re html li = Some m ->
               0 < String.length (whole m) /\ is_ident (tagOf m) = true.

Lemma exec_loop_at_total :
  forall fuel li acc,
    String.length html - li < fuel ->
    exists l', exec_loop_at fuel html re tagOf li acc = Ret (acc ++ l')%list
               /\ Forall (fun pe => span_at html (fst pe) (snd pe)) l'.
Proof.
  induction fuel as [|fuel IH]; intros li acc Hf; [lia|].
  cbn [exec_loop_at]. rewrite (exec_global html re Hglobal).
  destruct (exec_at re html li) as [m|] eqn:E.
  2:{ exists []. rewrite app_nil_r. split; [reflexivity | constructor]. }
  destruct (exec_at_found _ _ _ _ E) as [Hli [Hend Hw]].
  destruct (Hmatch _ _ E) as [Hlen Hid].
  assert (Hfuel : String.length html - end_index m < fuel)
    by (unfold end_index in *; lia).
  destruct (extractElement_total html (tagOf m) (index m) Hid)
    as [X | [e [X Hs]]]; rewrite X; cbn [bind]; [now apply IH|].
  assert (Ht : truthy e = true).
  { destruct Hs as [n [Hn [Hb [-> _]]]]. apply truthy_take.
    rewrite drop_length. lia. }
  rewrite Ht.
  destruct (IH (end_index m) (acc ++ [(index m, e)])%list Hfuel)
    as [l' [E' F]].
  exists ((index m, e) :: l'). rewrite E', <- app_assoc.
  split; [reflexivity | now constructor].
Qed.

End LoopTotal.

Section TagFinder.

Import RegExp Ref HtmlParser.

Lemma open_match_nonempty (T html : string) (n : nat) (g : bool) (li : nat)
  (m : match_result) :
  exec_at (mk (open_re T) n true g) html li = Some m ->
  0 < String.length (whole m).
Proof.
  unfold exec_at. cbn [ignoreCase pattern].
  destruct (seek li None html) as [[prev rest]|]; [|discriminate].
  rewrite (scan_decided _ _ (open_re_decided T) (open_len_le T)).
  destruct (first_at (open_len T) rest) as [i|] eqn:F; [|discriminate].
  destruct (first_at_found _ _ _ F) as [_ [k Hk]]. rewrite Hk.
  intros [= <-]. cbn [whole]. apply open_len_bound in Hk.
  rewrite take_length. lia.
Qed.

(** [getByTag] without a class name, for a plain tag name: it returns,
    and each element is a span of the document that ends with [>]. *)
Lemma getByTag_total (html tag : string) :
  is_ident tag = true ->
  exists l, getByTag html tag None = Ret (map snd l)
            /\ StronglySorted lt (map fst l)
            /\ Forall (fun pe => span_at html (fst pe) (snd pe)) l.
Proof.
  intros HT. unfold getByTag.
  rewrite (create_open tag "gi" true true HT flags_gi). cbn [bind].
  set (re := mk (open_re tag) 0 true true).
  destruct (exec_loop_at_total html re (fun _ => tag) eq_refl) with
    (fuel := S (String.length html)) (li := 0) (acc := @nil (nat * string))
    as [l [E F]].
  - intros li m H. split; [now apply open_match_nonempty in H | exact HT].
  - lia.
  - exists l. cbn [app] in E.
    change (@nil string) with (map snd (@nil (nat * string))).
    rewrite exec_loop_forget, E. cbn [bind]. split; [reflexivity|].
    split; [|exact F].
    destruct (exec_loop_at_sorted html re (fun _ => tag) eq_refl _ _ _ _ E)
      as [l' [El [S _]]].
    cbn [app] in El. now subst l'.
Qed.

End TagFinder.


(* ================================================================== *)
(** * [getAttr] and [getAttrs] *)

Section AttrFacts.

Import RegExp Ref HtmlParser.







End AttrFacts.

(* ================================================================== *)
(** * The selector pattern *)

Section SelectorFacts.

Import RegExp Ref HtmlParser.

Lemma in_alnum_ranges (d : ascii) : in_ranges false alnum_ranges d = is_alnum d.
Proof. each_char d. Qed.

Lemma in_ident_ranges (d : ascii) :
  in_ranges false ident_ranges d = is_ident_char d.
Proof. each_char d. Qed.

Lemma ident_not_hash (d : ascii) :
  is_ident_char d = true -> Ascii.eqb "#" d = false.
Proof. each_char d. Qed.

Lemma ident_not_dot (d : ascii) :
  is_ident_char d = true -> Ascii.eqb "." d = false.
Proof. each_char d. Qed.

Lemma create_selector : create selector_source "" = Ret selector_re.
Proof. vm_compute. reflexivity. Qed.

Lemma selector_re_eq :
  selector_re =
  mk (Seq Bol
        (Seq (Opt (Group 1 (Seq (Star (Cls false alnum_ranges)) Eps)))
           (Seq (Opt (Group 2 (piece "#")))
              (Seq (Opt (Group 3 (piece "."))) (Seq Eol Eps)))))
     3 false false.
Proof. reflexivity. Qed.

(** A greedy run over a class, when what follows the star cannot
    succeed in front of a character of the class: the whole run is
    taken. *)
Lemma star_loop_run (P : ascii -> bool) (rs : list (ascii * ascii)) k :
  (forall d, in_ranges false rs d = P d) ->
  (forall y d t, m_rest y = String d t -> P d = true -> k y = None) ->
  forall run tail n x,
    m_rest x = run ++ tail ->
    all_chars P run = true ->
    head_not P tail ->
    String.length (m_rest x) < n ->
    star_loop false (Cls false rs) k n x = k (consume (String.length run) x).
Proof.
  intros HP Hk. induction run as [|c run IH]; intros tail n x Hx Hrun Ht Hn;
    (destruct n as [|n]; [lia|]); cbn [star_loop rmatch].
  - cbn [append] in Hx. rewrite Hx. cbn [String.length consume].
    destruct tail as [|d t]; [reflexivity|].
    cbn [head_not] in Ht. now rewrite HP, Ht.
  - cbn [append] in Hx. rewrite Hx.
    cbn [all_chars] in Hrun. apply andb_true_iff in Hrun.
    destruct Hrun as [Hc Hrun]. rewrite HP, Hc. cbn [xorb].
    cbn [advance m_idx].
    replace (S (m_idx x) =? m_idx x) with false
      by (symmetry; apply Nat.eqb_neq; lia).
    rewrite (IH tail n (advance x c (run ++ tail)) eq_refl Hrun Ht)
      by (rewrite Hx in Hn; cbn [advance m_rest String.length] in *; lia).
    cbn [String.length consume]. rewrite Hx.
    destruct (k (consume (String.length run) (advance x c (run ++ tail))));
      [reflexivity|].
    now apply (Hk x c (run ++ tail)).
Qed.

Lemma consume_append (x : mstate) (a b : string) :
  m_rest x = a ++ b ->
  m_rest (consume (String.length a) x) = b
  /\ m_idx (consume (String.length a) x) = m_idx x + String.length a
  /\ take (String.length a) (m_rest x) = a.
Proof.
  intros H. rewrite consume_rest, consume_idx, H
    by (rewrite H, length_append; lia).
  now rewrite drop_append, take_append.
Qed.

Lemma rmatch_opt (ic : bool) (a : regex) (x : mstate) k :
  rmatch ic (Opt a) x k =
  match rmatch ic a x (fun y => if m_idx y =? m_idx x then None else k y) with
  | Some z => Some z
  | None => k x
  end.
Proof. reflexivity. Qed.

Lemma rmatch_group (ic : bool) (n : nat) (a : regex) (x : mstate) k :
  rmatch ic (Group n a) x k =
  rmatch ic a x
    (fun y => k (set_cap n (take (m_idx y - m_idx x) (m_rest x)) y)).
Proof. reflexivity. Qed.

Lemma rmatch_chr (ic : bool) (c : ascii) (x : mstate) k :
  rmatch ic (Chr c) x k =
  match m_rest x with
  | String d rest => if char_eq ic c d then k (advance x d rest) else None
  | "" => None
  end.
Proof. reflexivity. Qed.

Lemma rmatch_cls (ic neg : bool) (rs : list (ascii * ascii)) (x : mstate) k :
  rmatch ic (Cls neg rs) x k =
  match m_rest x with
  | String d rest =>
      if xorb neg (in_ranges ic rs d) then k (advance x d rest) else None
  | "" => None
  end.
Proof. reflexivity. Qed.

Lemma rmatch_seq (ic : bool) (a b : regex) (x : mstate) k :
  rmatch ic (Seq a b) x k = rmatch ic a x (fun y => rmatch ic b y k).
Proof. reflexivity. Qed.

(** The optional group of the tag name, a starred class of letters and
    digits, in front of a continuation that fails before a letter or
    digit. *)
Lemma rmatch_tag_group (k : mstate -> option mstate) (x : mstate)
  (tag tail : string) :
  (forall y d t, m_rest y = String d t -> is_alnum d = true -> k y = None) ->
  m_rest x = tag ++ tail ->
  is_name tag = true ->
  head_not is_alnum tail ->
  rmatch false (Opt (Group 1 (Seq (Star (Cls false alnum_ranges)) Eps))) x k =
  match tag with
  | "" => k x
  | _ => k (set_cap 1 tag (consume (String.length tag) x))
  end.
Proof.
  intros Hk Hx Htag Htail.
  rewrite rmatch_opt, rmatch_group, rmatch_seq, rmatch_star.
  rewrite (star_loop_run is_alnum alnum_ranges _ in_alnum_ranges) with
    (run := tag) (tail := tail); try assumption; try lia.
  - cbn [rmatch]. destruct (consume_append x tag tail Hx) as [_ [Hi Ht]].
    rewrite Hi. replace (m_idx x + String.length tag - m_idx x)
      with (String.length tag) by lia.
    rewrite Ht. cbn [set_cap m_idx]. rewrite Hi.
    destruct tag as [|c tag].
    + cbn [String.length]. now rewrite Nat.add_0_r, Nat.eqb_refl.
    + replace (m_idx x + String.length (String c tag) =? m_idx x) with false
        by (symmetry; apply Nat.eqb_neq; cbn [String.length]; lia).
      destruct (k _) eqn:E; [reflexivity|].
      cbn [append] in Hx. cbn [is_name all_chars] in Htag.
      apply andb_true_iff in Htag. now apply (Hk x c (tag ++ tail)).
  - intros y d t Hy Hd. cbn [rmatch set_cap m_idx].
    destruct (_ =? _); [reflexivity|]. now apply (Hk _ d t).
Qed.

Lemma rmatch_piece_absent (n : nat) (p : ascii) (x : mstate) k :
  head_differs p (m_rest x) ->
  rmatch false (Opt (Group n (piece p))) x k = k x.
Proof.
  intros H. rewrite rmatch_opt, rmatch_group. unfold piece.
  rewrite rmatch_seq. cbn [rmatch].
  destruct (m_rest x) as [|d t]; [reflexivity|].
  cbn [head_differs] in H. unfold char_eq. now rewrite H.
Qed.

Lemma rmatch_piece_present (n : nat) (p : ascii) (x : mstate) k
  (body tail : string) :
  (forall y d t, m_rest y = String d t -> is_ident_char d = true ->
                 k y = None) ->
  m_rest x = String p (body ++ tail) ->
  is_ident body = true -> body <> "" ->
  head_not is_ident_char tail ->
  rmatch false (Opt (Group n (piece p))) x k =
  match k (set_cap n (String p body) (consume (S (String.length body)) x)) with
  | Some z => Some z
  | None => k x
  end.
Proof.
  intros Hk Hx Hb Hne Ht. destruct body as [|c body]; [congruence|].
  cbn [is_ident all_chars] in Hb. unfold is_ident in Hb. cbn [all_chars] in Hb.
  apply andb_true_iff in Hb. destruct Hb as [Hc Hb].
  rewrite rmatch_opt, rmatch_group. unfold piece.
  rewrite rmatch_seq, rmatch_chr, Hx.
  unfold char_eq. rewrite Ascii.eqb_refl.
  rewrite rmatch_seq, rmatch_seq, rmatch_cls.
  cbn [advance m_rest append m_idx m_caps].
  rewrite in_ident_ranges, Hc. cbn [xorb].
  rewrite rmatch_star.
  rewrite (star_loop_run is_ident_char ident_ranges _ in_ident_ranges) with
    (run := body) (tail := tail); try assumption; try reflexivity; try lia.
  - set (x2 := advance (advance x p (String c (body ++ tail))) c (body ++ tail)).
    assert (Hx2 : m_rest x2 = body ++ tail) by reflexivity.
    destruct (consume_append x2 body tail Hx2) as [_ [Hi _]].
    change (m_idx x2) with (S (S (m_idx x))) in Hi.
    cbn [rmatch set_cap m_idx]. rewrite Hi.
    replace (S (S (m_idx x)) + String.length body =? m_idx x) with false
      by (symmetry; apply Nat.eqb_neq; lia).
    replace (S (S (m_idx x)) + String.length body - m_idx x)
      with (S (S (String.length body))) by lia.
    cbn [take]. rewrite take_append.
    cbn [consume String.length]. rewrite Hx. cbn [advance m_rest].
    reflexivity.
  - intros y d t Hy Hd. cbn [rmatch].
    destruct (_ =? _); [reflexivity|]. now apply (Hk _ d t).
Qed.

(** What follows each optional group of the selector pattern fails in
    front of a character that no later piece can start with. *)
Lemma selector_tail3 (y : mstate) (d : ascii) (t : string) :
  m_rest y = String d t -> rmatch false (Seq Eol Eps) y Some = None.
Proof. intros H. cbn [rmatch]. now rewrite H. Qed.

Lemma selector_tail2 (y : mstate) (d : ascii) (t : string) :
  m_rest y = String d t -> Ascii.eqb "." d = false ->
  rmatch false (Seq (Opt (Group 3 (piece "."))) (Seq Eol Eps)) y Some = None.
Proof.
  intros H Hd. rewrite rmatch_seq, rmatch_piece_absent.
  - now apply (selector_tail3 y d t).
  - rewrite H. exact Hd.
Qed.

Lemma selector_tail1 (y : mstate) (d : ascii) (t : string) :
  m_rest y = String d t -> Ascii.eqb "#" d = false -> Ascii.eqb "." d = false ->
  rmatch false
    (Seq (Opt (Group 2 (piece "#")))
       (Seq (Opt (Group 3 (piece "."))) (Seq Eol Eps))) y Some = None.
Proof.
  intros H H1 H2. rewrite rmatch_seq, rmatch_piece_absent.
  - now apply (selector_tail2 y d t).
  - rewrite H. exact H1.
Qed.

(** One optional piece of a selector, present or not: the state after
    it, where the continuation takes over. *)
Lemma selector_piece (n : nat) (p : ascii) (v : option string)
  (x : mstate) (tail : string) k :
  (forall y d t, m_rest y = String d t -> is_ident_char d = true ->
                 k y = None) ->
  (forall y t, m_rest y = String p t -> k y = None) ->
  m_rest x = piece_text p v ++ tail ->
  piece_ok v ->
  head_not is_ident_char tail ->
  head_differs p tail ->
  exists y,
    rmatch false (Opt (Group n (piece p))) x k = k y
    /\ m_rest y = tail
    /\ m_idx y = m_idx x + String.length (piece_text p v)
    /\ m_caps y = (piece_cap n p v ++ m_caps x)%list.
Proof.
  intros Hk Hp Hx Hv Ht Hd. destruct v as [s|]; cbn [piece_text piece_cap] in *.
  - destruct Hv as [Hs Hne]. cbn [append] in Hx.
    exists (set_cap n (String p s) (consume (S (String.length s)) x)).
    rewrite (rmatch_piece_present n p x k s tail Hk Hx Hs Hne Ht).
    rewrite (Hp x _ Hx).
    assert (Hx' : m_rest x = String p s ++ tail) by exact Hx.
    destruct (consume_append x (String p s) tail Hx') as [Hr [Hi _]].
    cbn [String.length] in Hr, Hi.
    split; [now destruct (k _)|].
    cbn [set_cap m_rest m_idx m_caps]. rewrite consume_caps.
    repeat split; assumption.
  - exists x. cbn [append] in Hx. rewrite rmatch_piece_absent.
    + repeat split; try assumption. cbn. lia.
    + now rewrite Hx.
Qed.

Lemma scan_here (ic : bool) (r : regex) (prev : option ascii) (rest : string)
  (idx : nat) (y : mstate) :
  rmatch ic r (MState prev rest idx []) Some = Some y ->
  scan ic r prev rest idx
  = Some (mkMatch idx (take (m_idx y - idx) rest) (m_caps y)).
Proof. intros H. destruct rest; cbn [scan]; now rewrite H. Qed.

(** The selector pattern on a selector made of its pieces: it matches
    the whole selector and captures each piece that is there. *)
Lemma selector_match (tag : string) (id cls : option string) :
  is_name tag = true -> piece_ok id -> piece_ok cls ->
  str_match (selector_of tag id cls) selector_re
  = Some (mkMatch 0 (selector_of tag id cls)
            (piece_cap 3 "." cls ++ piece_cap 2 "#" id ++ tag_cap tag)%list).
Proof.
  intros Htag Hid Hcls.
  unfold str_match, exec_at. cbn [seek]. rewrite selector_re_eq.
  cbn [ignoreCase pattern].
  set (sel := selector_of tag id cls).
  set (x0 := MState None sel 0 []).
  set (K2 := fun y => rmatch false
                        (Seq (Opt (Group 3 (piece "."))) (Seq Eol Eps)) y Some).
  set (K1 := fun y => rmatch false
                        (Seq (Opt (Group 2 (piece "#")))
                           (Seq (Opt (Group 3 (piece "."))) (Seq Eol Eps)))
                        y Some).
  assert (Hx0 : m_rest x0 = tag ++ piece_text "#" id ++ piece_text "." cls)
    by reflexivity.
  (* the tag name *)
  assert (H1 : exists y1,
             rmatch false
               (Opt (Group 1 (Seq (Star (Cls false alnum_ranges)) Eps))) x0 K1
             = K1 y1
             /\ m_rest y1 = piece_text "#" id ++ piece_text "." cls
             /\ m_idx y1 = String.length tag
             /\ m_caps y1 = tag_cap tag).
  { rewrite (rmatch_tag_group K1 x0 tag
               (piece_text "#" id ++ piece_text "." cls)); try assumption.
    - destruct (consume_append x0 tag _ Hx0) as [Hr [Hi _]].
      destruct tag as [|c tag].
      + exists x0. repeat split.
      + eexists. split; [reflexivity|].
        cbn [set_cap m_rest m_idx m_caps]. rewrite consume_caps.
        repeat split; assumption.
    - intros y d t Hy Hd. apply (selector_tail1 y d t Hy).
      + apply ident_not_hash. now apply is_alnum_ident.
      + apply ident_not_dot. now apply is_alnum_ident.
    - now destruct id, cls. }
  destruct H1 as [y1 [E1 [R1 [I1 C1]]]].
  (* the id *)
  destruct (selector_piece 2 "#" id y1 (piece_text "." cls) K2)
    as [y2 [E2 [R2 [I2 C2]]]]; try assumption.
  { intros y d t Hy Hd. apply (selector_tail2 y d t Hy).
    now apply ident_not_dot. }
  { intros y t Hy. now apply (selector_tail2 y "#" t Hy). }
  { now destruct cls. }
  { now destruct cls. }
  (* the class name *)
  destruct (selector_piece 3 "." cls y2 ""
              (fun y => rmatch false (Seq Eol Eps) y Some))
    as [y3 [E3 [R3 [I3 C3]]]]; try exact I.
  { intros y d t Hy _. now apply (selector_tail3 y d t). }
  { intros y t Hy. now apply (selector_tail3 y "." t). }
  { now rewrite append_nil_r. }
  { exact Hcls. }
  assert (Hy3 : rmatch false
                  (Seq Bol
                     (Seq (Opt (Group 1 (Seq (Star (Cls false alnum_ranges)) Eps)))
                        (Seq (Opt (Group 2 (piece "#")))
                           (Seq (Opt (Group 3 (piece "."))) (Seq Eol Eps)))))
                  x0 Some = Some y3).
  { rewrite rmatch_seq. cbn [rmatch x0 m_prev].
    change (rmatch false
              (Opt (Group 1 (Seq (Star (Cls false alnum_ranges)) Eps)))
              x0 K1 = Some y3).
    rewrite E1. unfold K1. rewrite rmatch_seq.
    change (rmatch false (Opt (Group 2 (piece "#"))) y1 K2 = Some y3).
    rewrite E2. unfold K2. rewrite rmatch_seq, E3.
    cbn [rmatch]. now rewrite R3. }
  rewrite (scan_here _ _ _ _ _ _ Hy3).
  rewrite C3, C2, C1, I3, I2, I1, Nat.sub_0_r.
  do 2 f_equal. apply take_all.
  change sel with (tag ++ piece_text "#" id ++ piece_text "." cls).
  rewrite !length_append. lia.
Qed.

(** A selector made of its pieces is dispatched by priority. *)
Lemma querySelectorAll_of_pieces (html tag : string) (id cls : option string) :
  is_name tag = true -> piece_ok id -> piece_ok cls ->
  querySelectorAll html (selector_of tag id cls) = dispatch html tag id cls.
Proof.
  intros Htag Hid Hcls. unfold querySelectorAll.
  rewrite create_selector. cbn [bind].
  rewrite (selector_match tag id cls Htag Hid Hcls).
  unfold group. cbn [caps].
  destruct id as [[|i0 i]|]; [destruct Hid; congruence | |];
    destruct cls as [[|c0 c]|]; try (destruct Hcls; congruence);
    destruct tag as [|t0 tag];
    cbn [lookup piece_cap tag_cap app Nat.eqb strip1 truthy drop truthy_opt
         interpolate andb dispatch]; reflexivity.
Qed.

End SelectorFacts.


(* ================================================================== *)
(** * Soundness of the matcher *)

Section Soundness.

Import RegExp Ref HtmlParser.

Variable ic : bool.

Lemma star_loop_sound (a : regex) (k : mstate -> option mstate) :
  (forall x k' z, rmatch ic a x k' = Some z ->
                  exists y, reaches ic a x y /\ k' y = Some z) ->
  forall n x z,
    star_loop ic a k n x = Some z ->
    exists y, reaches ic (Star a) x y /\ k y = Some z.
Proof.
  intros Ha. induction n as [|n IH]; intros x z; cbn [star_loop].
  - intros H. exists x. split; [constructor | exact H].
  - destruct (rmatch ic a x _) as [z'|] eqn:E.
    + intros [= ->]. apply Ha in E. destruct E as [y [Ry Hy]].
      destruct (m_idx y =? m_idx x); [discriminate|].
      apply IH in Hy. destruct Hy as [y' [Ry' Hy']].
      exists y'. split; [|exact Hy']. econstructor; eauto.
    + intros H. exists x. split; [constructor | exact H].
Qed.

(** Whatever the matcher hands to its continuation is a state the
    pattern reaches. *)
Lemma rmatch_sound (r : regex) :
  forall x k z,
    rmatch ic r x k = Some z ->
    exists y, reaches ic r x y /\ k y = Some z.
Proof.
  induction r as [ |c|neg rs| | |neg|a IHa b IHb|a IHa b IHb|a IHa|a IHa|n a IHa];
    intros x k z.
  - cbn [rmatch]. intros H. exists x. split; [constructor | exact H].
  - cbn [rmatch]. destruct (m_rest x) as [|d rest] eqn:E; [discriminate|].
    destruct (char_eq ic c d) eqn:C; [|discriminate].
    intros H. eexists. split; [|exact H]. now constructor.
  - cbn [rmatch]. destruct (m_rest x) as [|d rest] eqn:E; [discriminate|].
    destruct (xorb neg (in_ranges ic rs d)) eqn:C; [|discriminate].
    intros H. eexists. split; [|exact H]. now constructor.
  - cbn [rmatch]. destruct (m_prev x) eqn:E; [discriminate|].
    intros H. exists x. split; [now constructor | exact H].
  - cbn [rmatch]. destruct (m_rest x) eqn:E; [|discriminate].
    intros H. exists x. split; [now constructor | exact H].
  - cbn [rmatch].
    destruct (xorb neg (xorb (word_before x) (word_after x))) eqn:E;
      [|discriminate].
    intros H. exists x. split; [now constructor | exact H].
  - rewrite rmatch_seq. intros H.
    apply IHa in H. destruct H as [y [Ry H]].
    apply IHb in H. destruct H as [y' [Ry' H]].
    exists y'. split; [econstructor; eauto | exact H].
  - cbn [rmatch]. destruct (rmatch ic a x k) as [z'|] eqn:E.
    + intros [= ->]. apply IHa in E. destruct E as [y [Ry H]].
      exists y. split; [now apply reach_alt_l | exact H].
    + intros H. apply IHb in H. destruct H as [y [Ry H]].
      exists y. split; [now apply reach_alt_r | exact H].
  - rewrite rmatch_star. now apply star_loop_sound.
  - rewrite rmatch_opt. destruct (rmatch ic a x _) as [z'|] eqn:E.
    + intros [= ->]. apply IHa in E. destruct E as [y [Ry H]].
      destruct (m_idx y =? m_idx x); [discriminate|].
      exists y. split; [now apply reach_opt_take | exact H].
    + intros H. exists x. split; [constructor | exact H].
  - rewrite rmatch_group. intros H.
    apply IHa in H. destruct H as [y [Ry H]].
    eexists. split; [|exact H]. now constructor.
Qed.

Lemma all_chars_append (P : ascii -> bool) (a b : string) :
  all_chars P (a ++ b) = all_chars P a && all_chars P b.
Proof.
  induction a as [|c a IH]; cbn [append all_chars]; [reflexivity|].
  now rewrite IH, andb_assoc.
Qed.

(** What a pattern consumes between two states it relates. *)
Lemma reaches_consumed (r : regex) (x y : mstate) :
  reaches ic r x y ->
  exists s, m_rest x = s ++ m_rest y
            /\ m_idx y = m_idx x + String.length s
            /\ (forall P, accepts_only ic P r -> all_chars P s = true).
Proof.
  induction 1 as [x|c d rest x Hx Hc|neg rs d rest x Hx Hc|x Hx|x Hx|neg x Hx
                 |a b x y z _ [s1 [R1 [I1 P1]]] _ [s2 [R2 [I2 P2]]]
                 |a b x y _ [s [R [I P]]]|a b x y _ [s [R [I P]]]
                 |a x|a x y _ [s [R [I P]]]
                 |a x|a x y z _ [s1 [R1 [I1 P1]]] _ [s2 [R2 [I2 P2]]]
                 |n a x y _ [s [R [I P]]]];
    try (exists ""; cbn; repeat split; auto; lia).
  - exists (String d ""). cbn [advance m_rest m_idx append String.length].
    repeat split; [exact Hx | lia |].
    intros P HP. cbn. now rewrite (HP d Hc).
  - exists (String d ""). cbn [advance m_rest m_idx append String.length].
    repeat split; [exact Hx | lia |].
    intros P HP. cbn. now rewrite (HP d Hc).
  - exists (s1 ++ s2). rewrite append_assoc, <- R2, <- R1, length_append.
    repeat split; [lia|]. intros P [Ha Hb].
    now rewrite all_chars_append, (P1 P Ha), (P2 P Hb).
  - exists s. repeat split; auto. intros Q [Ha _]. now apply P.
  - exists s. repeat split; auto. intros Q [_ Hb]. now apply P.
  - exists s. repeat split; auto.
  - exists (s1 ++ s2). rewrite append_assoc, <- R2, <- R1, length_append.
    repeat split; [lia|]. intros P Ha.
    now rewrite all_chars_append, (P1 P Ha), (P2 P Ha).
  - exists s. cbn [set_cap m_rest m_idx]. repeat split; auto.
Qed.

(** A pattern without groups leaves the captures alone. *)
Lemma reaches_caps (r : regex) (x y : mstate) :
  reaches ic r x y -> has_group r = false -> m_caps y = m_caps x.
Proof.
  induction 1; cbn [has_group]; intros Hg; try reflexivity;
    try discriminate;
    try (apply orb_false_iff in Hg; destruct Hg as [Ha Hb]);
    try (rewrite IHreaches2, IHreaches1; auto; fail);
    auto.
Qed.

End Soundness.

(* ================================================================== *)
(** * The pattern of [getByClass] *)

Section ClassPattern.

Import RegExp Ref HtmlParser.


Lemma parse_alt_fuel (f f' : nat) (s : string) (g : nat) (x : parsed) :
  parse_alt f s g = Ret x -> f <= f' -> parse_alt f' s g = Ret x.
Proof. apply parse_fuel_mono. Qed.

Lemma parse_alt_lits_ge (t : string) (F f : nat) (s : string) (g : nat)
  (r : regex) (rest : string) (g1 : nat) :
  is_ident t = true -> unquantified s ->
  parse_alt f s g = Ret (r, rest, g1) ->
  String.length t + f <= F ->
  parse_alt F (t ++ s) g = Ret (lits t r, rest, g1).
Proof.
  intros Ht Hs H Hle.
  apply parse_alt_fuel with (f := String.length t + f); [|exact Hle].
  now rewrite (parse_alt_lits t f s g Ht Hs), H.
Qed.

(** One step of the parser, for each kind of term. *)
Lemma step_disj f s g a rest g1 :
  parse_alt f s g = Ret (a, rest, g1) -> strip "|" rest = None ->
  parse_disj (S f) s g = Ret (a, rest, g1).
Proof. intros H Hs. cbn [parse_disj]. rewrite H. cbn [bind]. now rewrite Hs. Qed.

Lemma step_end f g : parse_alt (S f) "" g = Ret (Eps, "", g).
Proof. reflexivity. Qed.

Lemma step_stop f c s g :
  classify c = TStop -> parse_alt (S f) (String c s) g = Ret (Eps, String c s, g).
Proof. intros H. cbn [parse_alt]. now rewrite H. Qed.

Lemma step_lit f c s g a s2 r rest g1 :
  classify c = TLit -> quantified (Chr c) s = Ret (a, s2) ->
  parse_alt f s2 g = Ret (r, rest, g1) ->
  parse_alt (S f) (String c s) g = Ret (Seq a r, rest, g1).
Proof.
  intros Hc Hq H. cbn [parse_alt]. rewrite Hc, Hq. cbn [bind]. now rewrite H.
Qed.

Lemma step_wordb f s g r rest g1 :
  parse_alt f s g = Ret (r, rest, g1) ->
  parse_alt (S f) (String "\" (String "b" s)) g
  = Ret (Seq (WordB false) r, rest, g1).
Proof. intros H. cbn [parse_alt]. change (classify "\") with TEsc. cbv iota.
  change (Ascii.eqb "b" "b") with true. cbv iota. now rewrite H. Qed.

Lemma step_class_neg f s g ranges s2 a s3 r rest g1 :
  parse_class s [] = Ret (ranges, s2) ->
  quantified (Cls true ranges) s2 = Ret (a, s3) ->
  parse_alt f s3 g = Ret (r, rest, g1) ->
  parse_alt (S f) (String "[" (String "^" s)) g = Ret (Seq a r, rest, g1).
Proof.
  intros Hp Hq H. cbn [parse_alt]. change (classify "[") with TClass.
  cbv iota. change (strip "^" (String "^" s)) with (Some s). cbv iota.
  rewrite Hp. cbn [bind]. rewrite Hq. cbn [bind]. now rewrite H.
Qed.

Lemma step_class f s g ranges s2 a s3 r rest g1 :
  strip "^" s = None ->
  parse_class s [] = Ret (ranges, s2) ->
  quantified (Cls false ranges) s2 = Ret (a, s3) ->
  parse_alt f s3 g = Ret (r, rest, g1) ->
  parse_alt (S f) (String "[" s) g = Ret (Seq a r, rest, g1).
Proof.
  intros Hs Hp Hq H. cbn [parse_alt]. change (classify "[") with TClass.
  cbv iota. rewrite Hs, Hp. cbn [bind]. rewrite Hq. cbn [bind]. now rewrite H.
Qed.

Lemma step_open f s g body s3 g1 a s4 r rest g2 :
  strip "?" s = None ->
  parse_disj f s (S g) = Ret (body, String ")" s3, g1) ->
  quantified (Group (S g) body) s3 = Ret (a, s4) ->
  parse_alt f s4 g1 = Ret (r, rest, g2) ->
  parse_alt (S f) (String "(" s) g = Ret (Seq a r, rest, g2).
Proof.
  intros Hs Hd Hq H. cbn [parse_alt]. change (classify "(") with TOpen.
  cbv iota. rewrite Hs, Hd. cbn [bind].
  change (strip ")" (String ")" s3)) with (Some s3). cbv iota.
  rewrite Hq. cbn [bind]. now rewrite H.
Qed.

Ltac parse_step :=
  first
    [ eapply step_end
    | eapply step_stop; reflexivity
    | eapply step_wordb
    | eapply step_class_neg; [reflexivity | reflexivity | ]
    | eapply step_class; [reflexivity | reflexivity | reflexivity | ]
    | eapply step_lit; [reflexivity | reflexivity | ] ].

Lemma unquantified_class_post : unquantified (qq "\b[^']*'[^>]*)>").
Proof. intros a. reflexivity. Qed.

Lemma parse_class_post :
  parse_alt 6 (qq "\b[^']*'[^>]*)>") 2
  = Ret (Seq (WordB false)
           (Seq (Star notdq) (Seq (Chr dquote) (Seq (Star notgt) Eps))),
         ")>", 2).
Proof. reflexivity. Qed.

(** The second group of the class pattern. *)
Lemma parse_class_body (c : string) (F : nat) :
  is_ident c = true ->
  String.length c + 20 <= F ->
  parse_disj F (qq "[^>]*\bclass='[^']*\b" ++ c ++ qq "\b[^']*'[^>]*)>") 2
  = Ret (class_body c, ")>", 2).
Proof.
  intros Hc HF.
  apply parse_disj_fuel with
    (f := S (S (S (S (S (S (S (S (S (S (S (S (S (String.length c + 6))))))))))))));
    [|lia].
  eapply step_disj; [|reflexivity].
  repeat parse_step.
  apply (parse_alt_lits_ge c _ 6 _ 2 _ _ _ Hc unquantified_class_post
           parse_class_post). lia.
Qed.


Lemma strip_ident (p : ascii) (t s : string) :
  is_ident_char p = false -> is_ident t = true -> strip p s = None ->
  strip p (t ++ s) = None.
Proof.
  intros Hp Ht Hs. destruct t as [|c t]; [exact Hs|].
  cbn [append strip]. cbn [is_ident] in Ht. unfold is_ident in Ht.
  cbn [all_chars] in Ht. apply andb_true_iff in Ht. destruct Ht as [Hc _].
  destruct (Ascii.eqb c p) eqn:E; [|reflexivity].
  apply Ascii.eqb_eq in E. congruence.
Qed.

Lemma unquantified_group2 (s : string) : unquantified (String ")" s).
Proof. intros a. reflexivity. Qed.

(** The pattern [getByClass] compiles for its default tag ... *)
Lemma create_class_any (c : string) :
  is_ident c = true ->
  create (class_source c anyTag) "gi"
  = Ret (mk (class_re anyTag_re c) 2 true true).
Proof.
  intros Hc.
  apply create_from with
    (F := S (S (S (S (S (S (S (String.length c + 20))))))));
    [| |reflexivity].
  - unfold class_source, anyTag.
    eapply step_disj; [|reflexivity].
    eapply step_lit; [reflexivity | reflexivity |].
    eapply step_open.
    + reflexivity.
    + eapply step_disj; [repeat parse_step | reflexivity].
    + reflexivity.
    + eapply step_open.
      * reflexivity.
      * apply parse_class_body; [exact Hc | lia].
      * reflexivity.
      * repeat parse_step.
  - unfold class_source. rewrite !length_append.
    replace (String.length (qq ")([^>]*\bclass='[^']*\b")) with 23
      by reflexivity.
    lia.
Qed.

(** ... and for a tag name. *)
Lemma create_class_tag (c t : string) :
  is_ident c = true -> is_ident t = true ->
  create (class_source c t) "gi"
  = Ret (mk (class_re (lits t Eps) c) 2 true true).
Proof.
  intros Hc Ht.
  apply create_from with
    (F := S (S (S (S (S (S (String.length t + String.length c + 20)))))));
    [| |reflexivity].
  - unfold class_source.
    eapply step_disj; [|reflexivity].
    eapply step_lit; [reflexivity | reflexivity |].
    eapply step_open.
    + now apply strip_ident.
    + eapply step_disj; [|reflexivity].
      eapply parse_alt_lits_ge with (f := 1);
        [exact Ht | apply unquantified_group2 | | lia].
      eapply step_stop. reflexivity.
    + reflexivity.
    + eapply step_open.
      * reflexivity.
      * apply parse_class_body; [exact Hc | lia].
      * reflexivity.
      * repeat parse_step.
  - unfold class_source. rewrite !length_append.
    replace (String.length (qq ")([^>]*\bclass='[^']*\b")) with 23
      by reflexivity.
    replace (String.length (qq "\b[^']*'[^>]*)>")) with 15 by reflexivity.
    cbn [String.length]. lia.
Qed.

End ClassPattern.

(* ================================================================== *)
(** * The matches of the class pattern *)

Section ClassMatches.

Import RegExp Ref HtmlParser.

Lemma reaches_seq_inv ic a b x z :
  reaches ic (Seq a b) x z -> exists y, reaches ic a x y /\ reaches ic b y z.
Proof. inversion 1; subst; eauto. Qed.

Lemma reaches_chr_inv ic c x y :
  reaches ic (Chr c) x y ->
  exists d rest, m_rest x = String d rest /\ char_eq ic c d = true
                 /\ y = advance x d rest.
Proof. inversion 1; subst; eauto. Qed.

Lemma reaches_group_inv ic n a x z :
  reaches ic (Group n a) x z ->
  exists y, reaches ic a x y
            /\ z = set_cap n (take (m_idx y - m_idx x) (m_rest x)) y.
Proof. inversion 1; subst; eauto. Qed.

Lemma reaches_eps_inv ic x y : reaches ic Eps x y -> y = x.
Proof. inversion 1; subst; eauto. Qed.

(** A match found by [scan] is a match of the pattern at its index. *)
Lemma scan_rmatch (ic : bool) (r : regex) (rest : string) :
  forall prev idx m,
    scan ic r prev rest idx = Some m ->
    exists prev' rest' y,
      rmatch ic r (MState prev' rest' (index m) []) Some = Some y
      /\ whole m = take (m_idx y - index m) rest'
      /\ caps m = m_caps y.
Proof.
  induction rest as [|c rest IH]; intros prev idx m; cbn [scan].
  - destruct (rmatch ic r _ Some) as [y|] eqn:E; [|discriminate].
    intros [= <-]. cbn [index whole caps]. eauto 6.
  - destruct (rmatch ic r _ Some) as [y|] eqn:E.
    + intros [= <-]. cbn [index whole caps]. eauto 6.
    + apply IH.
Qed.

Lemma has_group_lits (t : string) (r : regex) :
  has_group (lits t r) = has_group r.
Proof. induction t; cbn [lits has_group]; auto. Qed.

Lemma has_group_class_body (c : string) : has_group (class_body c) = false.
Proof.
  unfold class_body. cbn [has_group notgt notdq lits qq orb].
  now rewrite has_group_lits.
Qed.

Lemma is_ident_canonicalize (c : ascii) :
  is_ident_char (canonicalize c) = is_ident_char c.
Proof. each_char c. Qed.

Lemma accepts_only_lits (t : string) :
  is_ident t = true -> accepts_only true is_ident_char (lits t Eps).
Proof.
  unfold is_ident. induction t as [|c t IH]; cbn [all_chars lits accepts_only];
    [auto|].
  intros H. apply andb_true_iff in H. destruct H as [Hc Ht].
  split; [|now apply IH].
  intros d Hd. unfold char_eq in Hd. apply Ascii.eqb_eq in Hd.
  now rewrite <- is_ident_canonicalize, <- Hd, is_ident_canonicalize.
Qed.

Lemma accepts_only_anyTag : accepts_only true is_ident_char anyTag_re.
Proof.
  cbn [anyTag_re accepts_only]. repeat split; intros d; each_char d.
Qed.

(** A match of the class pattern is not empty, and its first group is
    a plain name when the tag pattern only takes identifier
    characters. *)
Lemma class_match (G : regex) (c html : string) (n : nat) (g : bool) (li : nat)
  (m : match_result) :
  accepts_only true is_ident_char G ->
  has_group G = false ->
  exec_at (mk (class_re G c) n true g) html li = Some m ->
  0 < String.length (whole m) /\ is_ident (tag_of_group1 m) = true.
Proof.
  intros HG Hg. unfold exec_at. cbn [ignoreCase pattern].
  destruct (seek li None html) as [[prev rest]|]; [|discriminate].
  intros H. apply scan_rmatch in H.
  destruct H as [prev' [rest' [y [H [Hw Hc]]]]].
  apply rmatch_sound in H. destruct H as [y' [R [= ->]]].
  unfold class_re in R.
  apply reaches_seq_inv in R. destruct R as [x1 [R0 R]].
  apply reaches_chr_inv in R0. destruct R0 as [d [rest1 [E0 [_ ->]]]].
  cbn [m_rest] in E0. subst rest'.
  apply reaches_seq_inv in R. destruct R as [x2 [R1 R]].
  apply reaches_group_inv in R1. destruct R1 as [y1 [R1 ->]].
  apply reaches_seq_inv in R. destruct R as [x3 [R2 R]].
  apply reaches_group_inv in R2. destruct R2 as [y2 [R2 ->]].
  apply reaches_seq_inv in R. destruct R as [x4 [R3 R]].
  apply reaches_chr_inv in R3. destruct R3 as [d3 [rest3 [E3 [_ ->]]]].
  apply reaches_eps_inv in R. subst y.
  destruct (reaches_consumed _ _ _ _ R1) as [s1 [Rs1 [I1 P1]]].
  destruct (reaches_consumed _ _ _ _ R2) as [s2 [Rs2 [I2 _]]].
  pose proof (reaches_caps _ _ _ _ R1 Hg) as C1.
  pose proof (reaches_caps _ _ _ _ R2 (has_group_class_body c)) as C2.
  cbn [advance set_cap m_rest m_idx m_caps] in *.
  split.
  - rewrite Hw, take_length. cbn [String.length]. lia.
  - unfold tag_of_group1, group. rewrite Hc, C2.
    cbn [lookup Nat.eqb interpolate].
    rewrite I1, Rs1.
    replace (S (index m) + String.length s1 - S (index m))
      with (String.length s1) by lia.
    rewrite take_append. now apply P1.
Qed.

(** [getByClass] returns for a plain class name and a tag that is left
    out or plain; its elements are spans of the document. *)
Lemma getByClass_total (html c : string) (tag : option string) :
  is_ident c = true -> tag_ok tag ->
  exists found,
    getByClass_at html c tag = Ret found
    /\ Forall (fun pe => span_at html (fst pe) (snd pe)) found.
Proof.
  intros Hc Ht. unfold getByClass_at.
  assert (H : exists G,
             accepts_only true is_ident_char G /\ has_group G = false
             /\ create (class_source c
                          match tag with Some t => t | None => anyTag end) "gi"
                = Ret (mk (class_re G c) 2 true true)).
  { destruct tag as [t|]; cbn [tag_ok] in Ht.
    - exists (lits t Eps). split; [now apply accepts_only_lits|].
      split; [now rewrite has_group_lits | now apply create_class_tag].
    - exists anyTag_re. split; [exact accepts_only_anyTag|].
      split; [reflexivity | now apply create_class_any]. }
  destruct H as [G [HG [Hg ->]]]. cbn [bind].
  destruct (exec_loop_at_total html (mk (class_re G c) 2 true true)
              tag_of_group1 eq_refl) with
    (fuel := S (String.length html)) (li := 0) (acc := @nil (nat * string))
    as [l [E F]].
  - intros li m H. now apply (class_match G c html 2 true li m).
  - lia.
  - exists l. split; [exact E | exact F].
Qed.

End ClassMatches.

(* ================================================================== *)
(** * The selectors of the grammar *)

Section GrammarFacts.

Import RegExp Ref HtmlParser.

Lemma reaches_opt_inv ic a x y :
  reaches ic (Opt a) x y -> y = x \/ reaches ic a x y.
Proof. inversion 1; subst; auto. Qed.

Lemma reaches_cls_inv ic neg rs x y :
  reaches ic (Cls neg rs) x y ->
  exists d rest, m_rest x = String d rest
                 /\ xorb neg (in_ranges ic rs d) = true
                 /\ y = advance x d rest.
Proof. inversion 1; subst; eauto. Qed.

Lemma reaches_eol_inv ic x y : reaches ic Eol x y -> y = x /\ m_rest x = "".
Proof. inversion 1; subst; auto. Qed.

Lemma reaches_bol_inv ic x y : reaches ic Bol x y -> y = x.
Proof. inversion 1; subst; auto. Qed.

Lemma scan_bol_only (ic : bool) (r : regex) (c : ascii) (rest : string)
  (idx : nat) :
  scan ic (Seq Bol r) (Some c) rest idx = None.
Proof.
  revert c idx; induction rest as [|d rest IH]; intros c idx;
    cbn [scan rmatch m_prev]; [reflexivity | apply IH].
Qed.

Lemma scan_bol (ic : bool) (r : regex) (s : string) (m : match_result) :
  scan ic (Seq Bol r) None s 0 = Some m ->
  exists y, rmatch ic (Seq Bol r) (MState None s 0 []) Some = Some y.
Proof.
  destruct s as [|c s]; cbn [scan];
    destruct (rmatch ic (Seq Bol r) _ Some) as [y|] eqn:E;
    try discriminate; eauto.
  now rewrite scan_bol_only.
Qed.

(** What the optional tag group takes is a name. *)
Lemma reaches_tag_group (x y : mstate) :
  reaches false (Opt (Group 1 (Seq (Star (Cls false alnum_ranges)) Eps))) x y ->
  exists tag, is_name tag = true /\ m_rest x = tag ++ m_rest y.
Proof.
  intros R. apply reaches_opt_inv in R. destruct R as [-> | R].
  - now exists "".
  - apply reaches_group_inv in R. destruct R as [y' [R ->]].
    destruct (reaches_consumed _ _ _ _ R) as [s [Rs [_ P]]].
    exists s. split; [|exact Rs].
    apply P. cbn [accepts_only]. split; [|exact I].
    intros d. cbn [xorb]. now rewrite in_alnum_ranges.
Qed.

(** What an optional piece takes is nothing, or its prefix and a
    non-empty identifier. *)
Lemma reaches_piece_group (n : nat) (p : ascii) (x y : mstate) :
  reaches false (Opt (Group n (piece p))) x y ->
  exists v, piece_ok v /\ m_rest x = piece_text p v ++ m_rest y.
Proof.
  intros R. apply reaches_opt_inv in R. destruct R as [-> | R].
  - now exists None.
  - apply reaches_group_inv in R. destruct R as [y' [R ->]].
    unfold piece in R.
    apply reaches_seq_inv in R. destruct R as [x1 [R0 R]].
    apply reaches_chr_inv in R0. destruct R0 as [d [rest [E0 [Hd ->]]]].
    unfold char_eq in Hd. apply Ascii.eqb_eq in Hd. subst d.
    apply reaches_seq_inv in R. destruct R as [x2 [R R']].
    apply reaches_eps_inv in R'. subst x2.
    apply reaches_seq_inv in R. destruct R as [x2 [R1 R2]].
    apply reaches_cls_inv in R1. destruct R1 as [d [rest1 [E1 [Hd ->]]]].
    cbn [xorb] in Hd. rewrite in_ident_ranges in Hd.
    destruct (reaches_consumed _ _ _ _ R2) as [s [Rs [_ P]]].
    cbn [advance m_rest set_cap] in *.
    exists (Some (String d s)). cbn [piece_ok piece_text]. split.
    + split; [|discriminate]. unfold is_ident. cbn [all_chars].
      rewrite Hd. apply P. cbn [accepts_only].
      intros e. cbn [xorb]. now rewrite in_ident_ranges.
    + rewrite E0, E1, Rs. reflexivity.
Qed.

(** Every selector that matches the grammar is made of its pieces. *)
Lemma grammar_pieces (selector : string) :
  matches_grammar selector = true ->
  exists tag id cls,
    is_name tag = true /\ piece_ok id /\ piece_ok cls
    /\ selector = selector_of tag id cls.
Proof.
  unfold matches_grammar, str_match, exec_at. cbn [seek].
  rewrite selector_re_eq. cbn [ignoreCase pattern].
  destruct (scan false _ None selector 0) as [m|] eqn:E; [|discriminate].
  intros _. apply scan_bol in E. destruct E as [y E].
  apply rmatch_sound in E. destruct E as [y' [R _]].
  apply reaches_seq_inv in R. destruct R as [x0 [R0 R]].
  apply reaches_bol_inv in R0. subst x0.
  apply reaches_seq_inv in R. destruct R as [y1 [R1 R]].
  apply reaches_seq_inv in R. destruct R as [y2 [R2 R]].
  apply reaches_seq_inv in R. destruct R as [y3 [R3 R]].
  apply reaches_seq_inv in R. destruct R as [y4 [R4 _]].
  apply reaches_eol_inv in R4. destruct R4 as [_ E3].
  destruct (reaches_tag_group _ _ R1) as [tag [Htag E0]].
  destruct (reaches_piece_group _ _ _ _ R2) as [id [Hid E1]].
  destruct (reaches_piece_group _ _ _ _ R3) as [cls [Hcls E2]].
  exists tag, id, cls. repeat split; try assumption.
  cbn [m_rest] in E0. rewrite E0, E1, E2, E3, append_nil_r.
  now destruct id, cls.
Qed.

End GrammarFacts.

(* ================================================================== *)
(** * The claims *)

Section Claims.

Import RegExp Ref HtmlParser.

(** ** C1: elements without a closing tag *)




(** ** C2: case *)

(** C2: the tag name is matched without regard to case, and so is the
    class name, because the flag [i] covers the whole pattern:
    [getByClass(html, "Foo")] returns the element of class [foo]. *)
Theorem getByClass_ignores_case :
  getByClass (qq "<DIV CLASS='foo'>text</DIV>") "foo" (Some "div")
    = Ret [qq "<DIV CLASS='foo'>text</DIV>"]
  /\ getByClass (qq "<div class='foo'>text</div>") "Foo" None
    = Ret [qq "<div class='foo'>text</div>"].
Proof. vm_compute. split; reflexivity. Qed.

(** ** C3: nesting *)


(** ** C4: text *)

(** C4, as stated, fails: a [>] outside any tag stays in the text. *)
Lemma getText_keeps_gt :
  getByTag "<p>a > b</p>" "p" None = Ret ["<p>a > b</p>"]
  /\ getText "<p>a > b</p>" = Ret "a > b"
  /\ has_char ">" "a > b" = true.
Proof. vm_compute. repeat split. Qed.

(** C4 (amended): [getText] is the text outside the substrings matching
    [<[^>]*>], taken from left to right, trimmed; and for every document
    [getByTag(html, "p")] returns, and the text of each of its elements
    contains no [<]. *)
Theorem getText_of_p_elements :
  (forall s, getText s = Ret (trim (strip_tags false s)))
  /\ (forall html,
        exists elements,
          getByTag html "p" None = Ret elements
          /\ Forall (fun e => exists t, getText e = Ret t
                                        /\ has_char "<" t = false) elements).
Proof.
  split; [exact getText_strip_tags|].
  intros html. destruct (getByTag_total html "p" eq_refl) as [l [E [_ F]]].
  exists (map snd l). split; [exact E|].
  rewrite Forall_map. eapply Forall_impl; [|exact F].
  intros [p e] [n [_ [_ [_ He]]]]. cbn [snd] in *. now apply getText_no_lt.
Qed.

(** ** C5: selectors outside the grammar *)

(** C5, as stated, fails: with the Tag Name of the specification, a
    letter followed by letters and digits, the selector [7up] is outside
    the grammar; the method, whose tag pattern takes any run of letters
    and digits, accepts it and returns the element.  The grammar of the
    specification does accept [div.card]. *)
Lemma querySelectorAll_accepts_digit_tag :
  matches_spec_grammar "7up" = false
  /\ matches_spec_grammar "div.card" = true
  /\ matches_grammar "7up" = true
  /\ querySelectorAll "<7up>x</7up>" "7up" = Ret ["<7up>x</7up>"]
  /\ querySelectorAll "<7up>x</7up>" "7up" <> Ret [].
Proof. vm_compute. repeat split; discriminate. Qed.

(** C5 (amended): the grammar of the method is an optional run of
    letters and digits, which may begin with a digit, an optional [#id]
    and an optional [.class], in that order, the id and the class name
    being non-empty runs of letters, digits, [_] and [-].  A selector
    that is not of this form gives the empty array without throwing;
    the selectors of this form are exactly those the pattern of the
    method matches; a selector that is a run of letters and digits,
    whatever its first character, is not rejected but handed to
    [getByTag]; [.class#id] and selectors with a combinator are
    rejected, and the empty selector gives the empty array too. *)
Theorem querySelectorAll_rejects :
  (forall html selector,
      matches_grammar selector = false ->
      querySelectorAll html selector = Ret [])
  /\ (forall html selector,
        (forall tag id cls,
            is_name tag = true -> piece_ok id -> piece_ok cls ->
            selector <> selector_of tag id cls) ->
        querySelectorAll html selector = Ret [])
  /\ (forall selector,
        matches_grammar selector = true
        <-> exists tag id cls,
              is_name tag = true /\ piece_ok id /\ piece_ok cls
              /\ selector = selector_of tag id cls)
  /\ (forall html tag,
        is_name tag = true -> tag <> "" ->
        querySelectorAll html tag = getByTag html tag None)
  /\ matches_grammar ".class#id" = false
  /\ matches_grammar "div p" = false
  /\ matches_grammar "div > p" = false
  /\ (forall html, querySelectorAll html ".class#id" = Ret [])
  /\ (forall html, querySelectorAll html "div p" = Ret [])
  /\ (forall html, querySelectorAll html "div > p" = Ret [])
  /\ (forall html, querySelectorAll html "" = Ret []).
Proof.
  assert (H : forall html selector,
             matches_grammar selector = false ->
             querySelectorAll html selector = Ret []).
  { intros html selector. unfold matches_grammar, querySelectorAll.
    rewrite create_selector. cbn [bind].
    now destruct (str_match selector selector_re). }
  split; [exact H|]. split.
  { intros html selector Hno. apply H.
    destruct (matches_grammar selector) eqn:E; [|reflexivity].
    destruct (grammar_pieces selector E) as [tag [id [cls [H1 [H2 [H3 H4]]]]]].
    now destruct (Hno tag id cls H1 H2 H3). }
  split.
  { intros selector. split; [apply grammar_pieces|].
    intros [tag [id [cls [H1 [H2 [H3 ->]]]]]]. unfold matches_grammar.
    now rewrite (selector_match tag id cls H1 H2 H3). }
  split.
  { intros html tag Ht Hne.
    pose proof (querySelectorAll_of_pieces html tag None None Ht I I) as Q.
    unfold selector_of in Q. rewrite !append_nil_r in Q. rewrite Q.
    destruct tag; [congruence | reflexivity]. }
  repeat split; reflexivity.
Qed.

Lemma querySelectorAll_rejects_witness :
  matches_grammar "a, b" = false
  /\ querySelectorAll "<a>x</a><b>y</b>" "a, b" = Ret [].
Proof.
  assert (H : matches_grammar "a, b" = false) by reflexivity.
  split; [exact H|].
  exact (proj1 querySelectorAll_rejects "<a>x</a><b>y</b>" "a, b" H).
Defined.

(** ** C6: dispatch *)

(** C6: a selector made of the pieces of the grammar is dispatched by
    priority, the id first, then tag and class together, then the class
    alone, then the tag alone; every selector that matches the grammar
    is made of such pieces; and [querySelector] returns the first
    element of [querySelectorAll], or [null] when there is none. *)
Theorem querySelectorAll_dispatch :
  (forall html tag id cls,
      is_name tag = true -> piece_ok id -> piece_ok cls ->
      querySelectorAll html (selector_of tag id cls)
      = dispatch html tag id cls)
  /\ (forall selector,
        matches_grammar selector = true ->
        exists tag id cls,
          is_name tag = true /\ piece_ok id /\ piece_ok cls
          /\ selector = selector_of tag id cls)
  /\ (forall html,
        querySelectorAll html "div#main.card" = getElementById html "main"
        /\ querySelectorAll html "div.card" = getByClass html "card" (Some "div")
        /\ querySelectorAll html ".card" = getByClass html "card" None
        /\ querySelectorAll html "div" = getByTag html "div" None)
  /\ (forall html selector,
        querySelector html selector
        = elements <- querySelectorAll html selector ;;
          Ret (hd_error elements)).
Proof.
  split; [exact querySelectorAll_of_pieces|].
  split; [exact grammar_pieces|].
  split.
  { intros html.
    assert (Hm : piece_ok (Some "main")) by (split; [reflexivity | discriminate]).
    assert (Hc : piece_ok (Some "card")) by (split; [reflexivity | discriminate]).
    split; [exact (querySelectorAll_of_pieces html "div" (Some "main")
                     (Some "card") eq_refl Hm Hc)|].
    split; [exact (querySelectorAll_of_pieces html "div" None (Some "card")
                     eq_refl I Hc)|].
    split; [exact (querySelectorAll_of_pieces html "" None (Some "card")
                     eq_refl I Hc)|].
    exact (querySelectorAll_of_pieces html "div" None None eq_refl I I). }
  intros html selector. unfold querySelector.
  destruct (querySelectorAll html selector) as [[|e l]| |]; reflexivity.
Qed.

Lemma querySelectorAll_dispatch_witness :
  is_name "a" = true /\ piece_ok (Some "top") /\ piece_ok (Some "link")
  /\ querySelectorAll (qq "<a id='top' class='link'>L</a>")
       (selector_of "a" (Some "top") (Some "link"))
     = dispatch (qq "<a id='top' class='link'>L</a>") "a"
         (Some "top") (Some "link").
Proof.
  assert (H1 : is_name "a" = true) by reflexivity.
  assert (H2 : piece_ok (Some "top")) by (split; [reflexivity | discriminate]).
  assert (H3 : piece_ok (Some "link")) by (split; [reflexivity | discriminate]).
  split; [exact H1|]. split; [exact H2|]. split; [exact H3|].
  exact (proj1 querySelectorAll_dispatch _ "a" (Some "top") (Some "link")
           H1 H2 H3).
Defined.

(** ** C7: the tag name as a prefix *)

(** C7: [extractElement] asks for no delimiter after the tag name: for
    the name [div] it accepts the opening tag [<divider>] and returns a
    span that this tag opens and [</div>] closes. *)
Theorem extractElement_accepts_longer_name :
  exists html,
    html = "<divider>" ++ "a" ++ "</div>"
    /\ open_len "div" html = Some (String.length "<divider>")
    /\ extractElement html 0 "div" = Ret (Some html).
Proof. exists "<divider>a</div>". vm_compute. repeat split. Qed.

(** ** C8: [getByTag] with a class name *)

(** C8, as stated, fails: the empty class name is falsy, so [getByTag]
    scans by tag alone while [getByClass] looks for a [class]
    attribute. *)
Lemma getByTag_empty_className :
  getByTag "<div>x</div>" "div" (Some "") = Ret ["<div>x</div>"]
  /\ getByClass "<div>x</div>" "" (Some "div") = Ret []
  /\ getByTag "<div>x</div>" "div" (Some "")
     <> getByClass "<div>x</div>" "" (Some "div").
Proof. vm_compute. repeat split; discriminate. Qed.

(** C8 (amended): for every document, tag name and non-empty class
    name, [getByTag(html, tag, className)] is
    [getByClass(html, className, tag)]. *)
Theorem getByTag_delegates :
  forall html tag className,
    className <> "" ->
    getByTag html tag (Some className) = getByClass html className (Some tag).
Proof.
  intros html tag [|c cs] H; [congruence | reflexivity].
Qed.

Lemma getByTag_delegates_witness :
  "link" <> ""
  /\ getByTag (qq "<a class='link'>L</a>") "a" (Some "link")
     = getByClass (qq "<a class='link'>L</a>") "link" (Some "a").
Proof.
  assert (H : "link" <> "") by discriminate.
  split; [exact H|].
  exact (getByTag_delegates (qq "<a class='link'>L</a>") "a" "link" H).
Defined.

(** ** C9: document order *)

(** C9: the elements returned by [getByClass] are pieces of the
    document found at strictly increasing offsets, for every document,
    class name and tag; [getByClass] does return for a plain class name
    and a tag that is left out or plain; three elements of class [item]
    come back in their order in the source. *)
Theorem getByClass_document_order :
  (forall html className tag found,
      getByClass_at html className tag = Ret found ->
      getByClass html className tag = Ret (map snd found)
      /\ StronglySorted lt (map fst found)
      /\ Forall (piece_at html) found)
  /\ (forall html className tag,
        is_ident className = true -> tag_ok tag ->
        exists found,
          getByClass_at html className tag = Ret found
          /\ getByClass html className tag = Ret (map snd found)
          /\ StronglySorted lt (map fst found)
          /\ Forall (fun pe => span_at html (fst pe) (snd pe)) found)
  /\ getByClass_at
       (qq "<li class='item'>X</li><li class='item'>Y</li><li class='item'>Z</li>")
       "item" None
     = Ret [(0, qq "<li class='item'>X</li>");
            (23, qq "<li class='item'>Y</li>");
            (46, qq "<li class='item'>Z</li>")]
  /\ getByClass
       (qq "<li class='item'>X</li><li class='item'>Y</li><li class='item'>Z</li>")
       "item" None
     = Ret [qq "<li class='item'>X</li>"; qq "<li class='item'>Y</li>";
            qq "<li class='item'>Z</li>"].
Proof.
  assert (A : forall html className tag found,
             getByClass_at html className tag = Ret found ->
             getByClass html className tag = Ret (map snd found)
             /\ StronglySorted lt (map fst found)
             /\ Forall (piece_at html) found).
  { intros html className tag found. unfold getByClass_at, getByClass.
    destruct (create _ "gi") as [re| |] eqn:C; try discriminate. cbn [bind].
    destruct (create_flags _ _ _ _ _ flags_gi C) as [_ Hg].
    intros H.
    change (@nil string) with (map snd (@nil (nat * string))).
    rewrite exec_loop_forget, H. cbn [bind]. split; [reflexivity|].
    destruct (exec_loop_at_sorted html re tag_of_group1 Hg _ _ _ _ H)
      as [l' [El [S [_ P]]]].
    cbn [app] in El. subst l'. now split. }
  split; [exact A|]. split; [|vm_compute; split; reflexivity].
  intros html className tag Hc Ht.
  destruct (getByClass_total html className tag Hc Ht) as [found [E F]].
  destruct (A _ _ _ _ E) as [E' [S _]].
  exists found. repeat split; assumption.
Qed.

Lemma getByClass_document_order_witness :
  getByClass_at (qq "<p class='a'>1</p><b class='a b'>2</b>") "a" None
    = Ret [(0, qq "<p class='a'>1</p>"); (18, qq "<b class='a b'>2</b>")]
  /\ getByClass (qq "<p class='a'>1</p><b class='a b'>2</b>") "a" None
     = Ret (map snd [(0, qq "<p class='a'>1</p>");
                     (18, qq "<b class='a b'>2</b>")])
  /\ StronglySorted lt
       (map fst [(0, qq "<p class='a'>1</p>"); (18, qq "<b class='a b'>2</b>")])
  /\ Forall (piece_at (qq "<p class='a'>1</p><b class='a b'>2</b>"))
       [(0, qq "<p class='a'>1</p>"); (18, qq "<b class='a b'>2</b>")].
Proof.
  assert (H : getByClass_at (qq "<p class='a'>1</p><b class='a b'>2</b>")
                "a" None
              = Ret [(0, qq "<p class='a'>1</p>");
                     (18, qq "<b class='a b'>2</b>")])
    by (vm_compute; reflexivity).
  split; [exact H|].
  exact (proj1 getByClass_document_order _ _ _ _ H).
Defined.

(** ** C10: [getAttrs] *)



End Claims.
